(** * shopify_python_api: access scopes and cursor-based pagination

    A shallow embedding of [shopify/api_access.py] and
    [shopify/collection.py], followed by the properties of the two
    components.

    Conventions of the embedding.
    - A Python [str] is a [string]; a character is a code point below 256.
    - A [frozenset] of strings is a [gset string]; a [frozenset] that may
      also hold [None] is a [gset (option string)], [None] standing for
      Python's [None].
    - A function that may raise returns a sum: [inl] carries the exception.
    - Objects that are mutated and shared (pages) live in a store and are
      referred to by their index. *)

From Stdlib Require Import Ascii String.
From stdpp Require Import gmap strings list.

Set Warnings "-clear-no-such-hyp".

(** ** Python string primitives *)

Module PyStr.

  (** [str.isspace] on the code points below 256: TAB, LF, VT, FF, CR,
      FS, GS, RS, US, SPACE, NEL and NBSP. *)
Definition isspace (c : ascii) : bool :=
  let n := nat_of_ascii c in
  (((9 <=? n) && (n <=? 13)) || ((28 <=? n) && (n <=? 32))
   || (n =? 133) || (n =? 160))%nat.

  (** [s.lstrip()] *)
Fixpoint lstrip (s : string) : string :=
  match s with
  | EmptyString => EmptyString
  | String c s' => if isspace c then lstrip s' else s
  end.

  (** [s.rstrip()] *)
Fixpoint rstrip (s : string) : string :=
  match s with
  | EmptyString => EmptyString
  | String c s' =>
      match rstrip s' with
      | EmptyString => if isspace c then EmptyString else String c EmptyString
      | r => String c r
      end
  end.

  (** A string that is empty or starts with a character that is not
      white space. *)
Definition clean_start (s : string) : Prop :=
  match s with
  | EmptyString => True
  | String c _ => isspace c = false
  end.

  (** [s.strip()] *)
Definition strip (s : string) : string := rstrip (lstrip s).

  (** [s[len(p):]] when [s.startswith(p)], nothing otherwise. *)
Fixpoint strip_prefix (p s : string) : option string :=
  match p, s with
  | EmptyString, _ => Some s
  | String a p', String b s' =>
      if Ascii.eqb a b then strip_prefix p' s' else None
  | String _ _, EmptyString => None
  end.

Definition startswith (p s : string) : bool :=
  match strip_prefix p s with Some _ => true | None => false end.

  (** The loop of [s.split(sep)] for a non-empty [sep]: [cur] is the piece
      being read, [skip] counts the characters of a separator that was
      recognised and is still to be passed over. *)
Fixpoint split_go (sep : string) (skip : nat) (cur s : string) : list string :=
  match s with
  | EmptyString => [cur]
  | String c s' =>
      match skip with
      | S k => split_go sep k cur s'
      | O =>
          if startswith sep s
          then cur :: split_go sep (String.length sep - 1) EmptyString s'
          else split_go sep 0 (cur +:+ String c EmptyString) s'
      end
  end.

  (** [s.split(sep)], [sep] not empty. *)
Definition split (sep s : string) : list string := split_go sep 0 EmptyString s.

  (** [sep.join(l)] *)
Fixpoint join (sep : string) (l : list string) : string :=
  match l with
  | [] => EmptyString
  | [x] => x
  | x :: l' => x +:+ sep +:+ join sep l'
  end.

  (** [c in s] for a character [c]. *)
Fixpoint contains (c : ascii) (s : string) : bool :=
  match s with
  | EmptyString => false
  | String a s' => Ascii.eqb a c || contains c s'
  end.

  (** [s[1:-1]] *)
Fixpoint drop_last (s : string) : string :=
  match s with
  | EmptyString => EmptyString
  | String c EmptyString => EmptyString
  | String c s' => String c (drop_last s')
  end.

Definition slice_1_m1 (s : string) : string :=
  match s with
  | EmptyString => EmptyString
  | String _ s' => drop_last s'
  end.

  (** Truth value of a string: empty is false. *)
Definition truthy (s : string) : bool :=
  match s with EmptyString => false | _ => true end.

End PyStr.

(** ** shopify/api_access.py *)

Module ApiAccess.

Import PyStr.

  (** [ApiAccessError(message)] *)
Inductive ApiAccessError : Type :=
  | mkApiAccessError (message : string).

  (** The argument of [ApiAccess(scopes)]: a string, or a collection of
      strings. *)
Inductive scopes_arg : Type :=
  | ScopesStr (s : string)
  | ScopesList (l : list string).

Definition SCOPE_DELIMITER : string := ",".

Definition newline : ascii := ascii_of_nat 10.

  (** The group [resource] followed by the end of the subject: a run of
      any characters but the newline, which the dot does not match.  The
      rest of the subject is the resource exactly when it holds no
      newline. *)
Definition match_resource (s : string) : option string :=
  if contains newline s then None else Some s.

  (** One of the verbs, an underscore and the resource; the alternatives
      are tried from the left.  The result is the verb and the resource. *)
Fixpoint match_verb (verbs : list string) (s : string) : option (string * string) :=
  match verbs with
  | [] => None
  | v :: verbs' =>
      match strip_prefix (v +:+ "_") s with
      | Some rest =>
          match match_resource rest with
          | Some r => Some (v, r)
          | None => match_verb verbs' s
          end
      | None => match_verb verbs' s
      end
  end.

  (** The whole pattern: the optional group [unauthenticated], a verb, an
      underscore and the resource, anchored at both ends.  The optional
      group is tried first and given up when the rest fails.
      The result holds the groups [unauthenticated] ([None] when the group
      did not take part), the verb and [resource]. *)
Definition match_scope (verbs : list string) (s : string)
  : option (option string * string * string) :=
  let without := (λ '(v, r), (None, v, r)) <$> match_verb verbs s in
  match strip_prefix "unauthenticated_" s with
  | Some rest =>
      match match_verb verbs rest with
      | Some (v, r) => Some (Some "unauthenticated_", v, r)
      | None => without
      end
  | None => without
  end.

Definition SCOPE_RE_match : string → option (option string * string * string) :=
  match_scope ["write"; "read"].

Definition IMPLIED_SCOPE_RE_match : string → option (option string * string * string) :=
  match_scope ["write"].

Record t : Type := mk {
  _compressed_scopes : gset string;
  _expanded_scopes : gset (option string)
}.

  (** [_get_implied_scope]: the read scope implied by a write scope,
      [None] for any other scope. *)
Definition _get_implied_scope (scope : string) : option string :=
  match IMPLIED_SCOPE_RE_match scope with
  | Some (unauthenticated, _, resource) =>
      Some (default "" unauthenticated +:+ "read_" +:+ resource)
  | None => None
  end.

Definition invalid_scope_message (scope : string) : string :=
  "'" +:+ scope +:+ "' is not a valid access scope".

  (** The loop of [_validate_scopes], over the scopes in the order the
      set yields them. *)
Fixpoint _validate_scopes_in (scopes : list string) : ApiAccessError + unit :=
  match scopes with
  | [] => inr tt
  | scope :: rest =>
      match SCOPE_RE_match scope with
      | None => inl (mkApiAccessError (invalid_scope_message scope))
      | Some _ => _validate_scopes_in rest
      end
  end.

Definition _validate_scopes (scopes : gset string) : ApiAccessError + unit :=
  _validate_scopes_in (elements scopes).

  (** [filter(None, (scope.strip() for scope in scopes))] *)
Definition sanitize (scopes : list string) : list string :=
  filter (λ s, truthy s = true) (strip <$> scopes).

  (** [_store_scopes].  The difference [sanitized - implied] keeps the
      members of [sanitized] that are not members of [implied]. *)
Definition _store_scopes (scopes : list string) : ApiAccessError + t :=
  let sanitized_scopes : gset string := list_to_set (sanitize scopes) in
  match _validate_scopes sanitized_scopes with
  | inl e => inl e
  | inr _ =>
      let implied_scopes : gset (option string) :=
        set_map _get_implied_scope sanitized_scopes in
      inr {| _compressed_scopes :=
               filter (λ s, Some s ∉ implied_scopes) sanitized_scopes;
             _expanded_scopes :=
               set_map Some sanitized_scopes ∪ implied_scopes |}
  end.

  (** The entries of the argument: a string is split at the delimiter. *)
Definition entries (scopes : scopes_arg) : list string :=
  match scopes with
  | ScopesStr s => split SCOPE_DELIMITER s
  | ScopesList l => l
  end.

  (** [ApiAccess(scopes)] *)
Definition __init__ (scopes : scopes_arg) : ApiAccessError + t :=
  _store_scopes (entries scopes).

  (** [self.covers(api_access)] *)
Definition covers (self api_access : t) : bool :=
  bool_decide (set_map Some (_compressed_scopes api_access)
                 ⊆@{gset (option string)} _expanded_scopes self).

  (** [str(self)] when the set yields its members in the order [order]. *)
Definition __str__in (order : list string) : string :=
  join SCOPE_DELIMITER order.

Definition __str__ (self : t) : string :=
  __str__in (elements (_compressed_scopes self)).

  (** [iter(self)] *)
Definition __iter__ (self : t) : list string :=
  elements (_compressed_scopes self).

  (** [self == other] *)
Definition __eq__ (self other : t) : bool :=
  bool_decide (_compressed_scopes self = _compressed_scopes other).

  (** The pattern as the specification words it,
      [^(unauthenticated_)?(write|read)_(.+)$]: the resource is not
      empty. *)
Definition spec_scope_pattern (s : string) : Prop :=
  ∃ p v r, p ∈ [""; "unauthenticated_"] ∧ v ∈ ["write"; "read"]
           ∧ r ≠ "" ∧ contains newline r = false
           ∧ s = p +:+ v +:+ "_" +:+ r.

  (** The pattern of [SCOPE_RE]: the resource may be empty. *)
Definition scope_pattern (s : string) : Prop :=
  ∃ p v r, p ∈ [""; "unauthenticated_"] ∧ v ∈ ["write"; "read"]
           ∧ contains newline r = false
           ∧ s = p +:+ v +:+ "_" +:+ r.

End ApiAccess.

(** ** shopify/collection.py *)

Module Collection.

Import PyStr.

  (** The exceptions that reach a caller of the pagination code.
      [DanglingReference] belongs to the embedding: it is the result of
      following a reference that the store does not hold, which no
      operation below ever creates. *)
Inductive exn : Type :=
  | IndexError (message : string)
  | ValueError
  | AttributeError (message : string)
  | TypeError (message : string)
  | FetchError (message : string)
  | DanglingReference.

  (** The result of a generator that is run to its end: it returned, an
      exception left it, or the run was cut short by the bound on the
      number of pages. *)
Inductive outcome : Type :=
  | Finished
  | Raised (e : exn)
  | OutOfFuel.

  (** [isinstance(e, IndexError)] *)
Definition is_IndexError (e : exn) : bool :=
  match e with IndexError _ => true | _ => false end.

  (** A reference to a page: its index in the store. *)
Abbreviation ref := nat (only parsing).

  (** The keys of [self.metadata] that the pagination code reads. *)
Record Metadata : Type := mkMetadata {
  md_resource_class : option string;
  md_headers : option (gmap string string)
}.

Definition dquote : string := String (ascii_of_nat 34) EmptyString.

Definition opt_truthy (o : option string) : bool :=
  match o with Some s => truthy s | None => false end.

  (** [a or b] on values that are a string or [None]. *)
Definition py_or (a b : option string) : option string :=
  if opt_truthy a then a else b.

  (** The body of the loop of [_parse_pagination] for one [value]: the
      relation name and the link. *)
Definition parse_link_value (value : string) : exn + (string * string) :=
  match split "; " value with
  | [link; rel] =>
      match split dquote rel with
      | _ :: name :: _ => inr (name, slice_1_m1 link)
      | _ => inl (IndexError "list index out of range")
      end
  | _ => inl ValueError
  end.

Fixpoint parse_link_values (values : list string) (result : gmap string string)
  : exn + gmap string string :=
  match values with
  | [] => inr result
  | value :: rest =>
      match parse_link_value value with
      | inl e => inl e
      | inr (name, link) => parse_link_values rest (<[name := link]> result)
      end
  end.

  (** The part of [_parse_pagination] after the header was found. *)
Definition parse_link_header (link_header : string) : exn + gmap string string :=
  parse_link_values (split ", " link_header) ∅.

Definition find_link_header (headers : gmap string string) : option string :=
  py_or (headers !! "Link") (headers !! "link").

Definition _parse_pagination (metadata : Metadata) : exn + gmap string string :=
  let headers := default ∅ (md_headers metadata) in
  let link_header := find_link_header headers in
  if negb (opt_truthy link_header) then inr ∅
  else parse_link_header (default "" link_header).

  (** Upper case ASCII letters to lower case. *)
Definition ascii_lower (c : ascii) : ascii :=
  let n := nat_of_ascii c in
  if ((65 <=? n) && (n <=? 90))%nat then ascii_of_nat (n + 32) else c.

Fixpoint lower (s : string) : string :=
  match s with
  | EmptyString => EmptyString
  | String c s' => String (ascii_lower c) (lower s')
  end.

  (** The header lookup as the specification words it: the value of a
      key that is [Link] in any casing. *)
Definition spec_link_header (headers : gmap string string) (v : string) : Prop :=
  ∃ k, lower k = "link" ∧ headers !! k = Some v.

Section Pages.

  (** The type of the resources a page holds. *)
Variable item : Type.

Record page : Type := mkPage {
  items : list item;
  pagination : gmap string string;
  next_page_url : option string;
  previous_page_url : option string;
  _next : option ref;
  _previous : option ref;
  _current_iter : option ref;
  _no_iter_next : bool
}.

Definition set_next (v : option ref) (p : page) : page :=
  mkPage (items p) (pagination p) (next_page_url p) (previous_page_url p)
         v (_previous p) (_current_iter p) (_no_iter_next p).

Definition set_previous (v : option ref) (p : page) : page :=
  mkPage (items p) (pagination p) (next_page_url p) (previous_page_url p)
         (_next p) v (_current_iter p) (_no_iter_next p).

Definition set_current_iter (v : option ref) (p : page) : page :=
  mkPage (items p) (pagination p) (next_page_url p) (previous_page_url p)
         (_next p) (_previous p) v (_no_iter_next p).

Definition set_no_iter_next (v : bool) (p : page) : page :=
  mkPage (items p) (pagination p) (next_page_url p) (previous_page_url p)
         (_next p) (_previous p) (_current_iter p) v.

  (** [PaginatedCollection.__init__] from the point where
      [Collection.__init__] has stored the elements and the metadata
      dictionary: [elems] and [metadata] are those, and [no_iter_next] is
      the keyword argument of that name when the caller gave one. *)
Definition __init__ (elems : list item) (metadata : Metadata)
    (no_iter_next : option bool) : exn + page :=
  match md_resource_class metadata with
  | None =>
      inl (AttributeError
        "Cursor-based pagination requires a resource_class attribute in the metadata.")
  | Some _ =>
      match _parse_pagination metadata with
      | inl e => inl e
      | inr links =>
          inr {| items := elems;
                 pagination := links;
                 next_page_url := links !! "next";
                 previous_page_url := links !! "previous";
                 _next := None;
                 _previous := None;
                 _current_iter := None;
                 _no_iter_next := default true no_iter_next |}
      end
  end.

Definition has_previous_page (p : page) : bool := opt_truthy (previous_page_url p).

Definition has_next_page (p : page) : bool := opt_truthy (next_page_url p).

  (** What the fetch collaborator hands to the constructor of the page it
      returns. *)
Record response : Type := mkResponse {
  resp_elems : list item;
  resp_metadata : Metadata;
  resp_no_iter_next : option bool
}.

  (** Modelled from the spec: the fetch collaborator
      [fetch_by_url(url) -> PagedSequence], reached in the source as
      [self.metadata["resource_class"].find(from_=url)] and not part of
      the source.  It fails with an error of its own or answers with the
      contents of a page, from which the page is constructed. *)
Variable find : string → exn + response.

  (** The store of pages and the URLs the collaborator was asked for,
      oldest first. *)
Record state : Type := mkState {
  heap : list page;
  fetched : list string
}.

Definition M (A : Type) : Type := state → (exn + A) * state.

Definition ret {A} (a : A) : M A := λ st, (inr a, st).

Definition bind {A B} (m : M A) (k : A → M B) : M B :=
  λ st, match m st with
        | (inl e, st') => (inl e, st')
        | (inr a, st') => k a st'
        end.

Definition raise {A} (e : exn) : M A := λ st, (inl e, st).

Notation "'let*' x := m 'in' k" := (bind m (λ x, k))
    (at level 10, x name, m at level 200, k at level 200, only parsing).
Notation "m >> k" := (bind m (λ _, k))
    (at level 100, right associativity, only parsing).

Definition get_page (r : ref) : M page :=
  λ st, match heap st !! r with
        | Some p => (inr p, st)
        | None => (inl DanglingReference, st)
        end.

  (** An attribute assignment on the page [r]. *)
Definition modify (r : ref) (f : page → page) : M unit :=
  λ st, match heap st !! r with
        | Some p => (inr tt, mkState (<[r := f p]> (heap st)) (fetched st))
        | None => (inl DanglingReference, st)
        end.

Definition alloc (p : page) : M ref :=
  λ st, (inr (length (heap st)), mkState (heap st ++ [p]) (fetched st)).

  (** [len(page)], line 125.  [Collection], the base class, is a
      subclass of [list]: [super().__len__()] is the number of elements,
      and, no [__bool__] being defined, the truth value of a page is
      [len(page) != 0].  [fuel] bounds the walk along [_next]. *)
Fixpoint __len__ (fuel : nat) (h : list page) (r : ref) : nat :=
  match fuel with
  | O => 0
  | S f =>
      match h !! r with
      | None => 0
      | Some p =>
          let count :=
            match _next p with
            | Some n => if (__len__ f h n =? 0)%nat then 0 else __len__ f h n
            | None => 0
            end in
          count + length (items p)
      end
  end.

  (** The truth value of an attribute that is a page or [None].  [_next]
      always refers to a page created later, so a walk along [_next] is
      no longer than the store. *)
Definition page_truthy (h : list page) (o : option ref) : bool :=
  match o with
  | None => false
  | Some r => negb (__len__ (length h) h r =? 0)%nat
  end.

  (** Every cached next page was created after the page that caches it.
      The navigation keeps this, and with it the walk of [__len__] never
      reaches its bound. *)
Definition next_forward (h : list page) : Prop :=
  ∀ (r : ref) (p : page) (n : ref), h !! r = Some p → _next p = Some n → r < n.

  (** [resource_class.find(from_=url)]: the request is recorded, and the
      page that the collaborator constructs is put in the store. *)
Definition resource_class_find (url : string) : M ref :=
  λ st,
    let st' := mkState (heap st) (fetched st ++ [url]) in
    match find url with
    | inl e => (inl e, st')
    | inr resp =>
        match __init__ (resp_elems resp) (resp_metadata resp) (resp_no_iter_next resp) with
        | inl e => (inl e, st')
        | inr p => alloc p st'
        end
    end.

Definition _fetch_page (self : ref) (url : string) (no_cache : bool) : M ref :=
  let* next_page := resource_class_find url in
  (if negb no_cache then
     (modify self (set_next (Some next_page)) >>
      let* p := get_page self in
      match _next p with
      | Some n => modify n (set_previous (Some self))
      | None => raise (AttributeError "'NoneType' object has no attribute '_previous'")
      end)
   else ret tt) >>
  let* p := get_page self in
  modify next_page (set_no_iter_next (_no_iter_next p)) >>
  ret next_page.

Definition previous_page (self : ref) (no_cache : bool) : M ref :=
  let* p := get_page self in
  λ st,
    if page_truthy (heap st) (_previous p) then
      match _previous p with
      | Some r => ret r st
      | None => raise DanglingReference st
      end
    else if negb (has_previous_page p) then raise (IndexError "No previous page") st
    else _fetch_page self (default "" (previous_page_url p)) no_cache st.

Definition next_page (self : ref) (no_cache : bool) : M ref :=
  let* p := get_page self in
  λ st,
    if page_truthy (heap st) (_next p) then
      match _next p with
      | Some r => ret r st
      | None => raise DanglingReference st
      end
    else if negb (has_next_page p) then raise (IndexError "No next page") st
    else _fetch_page self (default "" (next_page_url p)) no_cache st.

  (** [PaginatedCollection.__iter__] run to its end by a consumer that
      asks for every item: the items yielded, how the generator ended and
      the store it leaves.  [fuel] bounds the number of pages walked. *)
Fixpoint __iter__ (fuel : nat) (self : ref) (st : state)
  : list item * outcome * state :=
  match fuel with
  | O => ([], OutOfFuel, st)
  | S f =>
      match get_page self st with
      | (inl e, st) => ([], Raised e, st)
      | (inr p, st) =>
          let own := items p in
          if _no_iter_next p then (own, Finished, st)
          else
            let enter : M unit :=
              if negb (page_truthy (heap st) (_current_iter p))
              then modify self (set_current_iter (Some self))
              else ret tt in
            match (enter >> next_page self false) st with
            | (inl (IndexError _), st) => (own, Finished, st)
            | (inl e, st) => (own, Raised e, st)
            | (inr n, st) =>
                match modify self (set_current_iter (Some n)) st with
                | (inl e, st) => (own, Raised e, st)
                | (inr _, st) =>
                    let '(rest, out, st) := __iter__ f n st in
                    match out with
                    | Raised (IndexError _) => ((own ++ rest)%list, Finished, st)
                    | _ => ((own ++ rest)%list, out, st)
                    end
                end
            end
      end
  end.

  (** [len(self)] as a caller sees it. *)
Definition page_len (self : ref) : M nat :=
  λ st, (inr (__len__ (length (heap st)) (heap st) self), st).

  (** The argument of [PaginatedIterator(collection)]: a page, or a value
      of another class. *)
Inductive pyarg : Type :=
  | APage (r : ref)
  | NotAPage.

Record PaginatedIterator : Type := mkPaginatedIterator {
  collection : ref
}.

Definition PaginatedIterator__init__ (arg : pyarg) : M PaginatedIterator :=
  match arg with
  | NotAPage => raise (TypeError "PaginatedIterator expects a PaginatedCollection instance")
  | APage c =>
      modify c (set_no_iter_next true) >>
      ret (mkPaginatedIterator c)
  end.

  (** The generator of [PaginatedIterator.__iter__] between two yields:
      not started, suspended at the [yield] with [current_page], or
      ended. *)
Inductive pgen : Type :=
  | GStart (it : PaginatedIterator)
  | GYielded (current_page : ref)
  | GDone.

  (** One [next()] on the generator: the page yielded ([None] when the
      generator returns) or the exception that leaves it. *)
Definition pgen_next (g : pgen) (st : state) : (exn + option ref) * pgen * state :=
  match g with
  | GStart it => (inr (Some (collection it)), GYielded (collection it), st)
  | GYielded current_page =>
      match next_page current_page true st with
      | (inr q, st) => (inr (Some q), GYielded q, st)
      | (inl (IndexError _), st) => (inr None, GDone, st)
      | (inl e, st) => (inl e, GDone, st)
      end
  | GDone => (inr None, GDone, st)
  end.

  (** The generator run to its end: the pages yielded in order. *)
Fixpoint pgen_run (fuel : nat) (g : pgen) (st : state)
  : list ref * outcome * state :=
  match fuel with
  | O => ([], OutOfFuel, st)
  | S f =>
      match pgen_next g st with
      | (inr (Some q), g, st) =>
          let '(rest, out, st) := pgen_run f g st in (q :: rest, out, st)
      | (inr None, _, st) => ([], Finished, st)
      | (inl e, _, st) => ([], Raised e, st)
      end
  end.

  (** The request for [u] fails with [e]: in the collaborator, or in the
      constructor of the page it answers with. *)
Definition fetch_fails (u : string) (e : exn) : Prop :=
  find u = inl e
  ∨ ∃ resp, find u = inr resp
            ∧ __init__ (resp_elems resp) (resp_metadata resp)
                (resp_no_iter_next resp) = inl e.

  (** The store after the page [self], which is [p], fetched the page
      that was constructed as [np]: the new page is put at the end. *)
Definition fetched_heap (st : state) (self : ref) (p np : page)
    (no_cache : bool) : list page :=
  <[self := if no_cache then p else set_next (Some (length (heap st))) p]> (heap st)
  ++ [set_no_iter_next (_no_iter_next p)
        (if no_cache then np else set_previous (Some self) np)].

  (** The pages that the collaborator serves from the link [url] on,
      each as its constructor builds it, up to the first one without a
      next link. *)
Inductive chain : option string → list page → Prop :=
  | chain_end (url : option string) :
      opt_truthy url = false → chain url []
  | chain_next (u : string) (resp : response) (np : page) (ps : list page) :
      truthy u = true →
      find u = inr resp →
      __init__ (resp_elems resp) (resp_metadata resp) (resp_no_iter_next resp)
        = inr np →
      chain (next_page_url np) ps →
      chain (Some u) (np :: ps).

  (** The URLs that are requested along a chain. *)
Fixpoint chain_urls (url : option string) (ps : list page) : list string :=
  match ps with
  | [] => []
  | np :: ps' => default "" url :: chain_urls (next_page_url np) ps'
  end.

  (** [navigates st r st' r']: from the page [r] in the store [st], a
      sequence of calls of [next_page] and [previous_page], each on the
      page the call before returned and each fetching its result, ends at
      the page [r'] in the store [st']. *)
Inductive navigates : state → ref → state → ref → Prop :=
  | navigates_here (st : state) (r : ref) : navigates st r st r
  | navigates_fetch (st : state) (r : ref) (no_cache : bool)
      (st1 : state) (q : ref) (st2 : state) (r2 : ref) :
      next_page r no_cache st = (inr q, st1)
      ∨ previous_page r no_cache st = (inr q, st1) →
      fetched st1 ≠ fetched st →
      navigates st1 q st2 r2 →
      navigates st r st2 r2.

  (** [walked h r qs]: in the store [h] the pages [qs] are the page [r]
      and the pages cached behind it along [_next], each created after
      the one before; all are in auto-advance mode, all but the first
      hold items, and the last has neither a cached next page nor a next
      link. *)
Inductive walked (h : list page) : ref → list page → Prop :=
  | walked_last (r : ref) (p : page) :
      h !! r = Some p → _next p = None → _no_iter_next p = false →
      has_next_page p = false →
      walked h r [p]
  | walked_next (r : ref) (p : page) (q : ref) (pq : page)
      (qs : list page) :
      h !! r = Some p → _next p = Some q → r < q → _no_iter_next p = false →
      items pq ≠ [] →
      walked h q (pq :: qs) →
      walked h r (p :: pq :: qs).
  (** The flag [_no_iter_next] of the page [r], when the store holds it. *)
Definition no_iter_next_of (st : state) (r : ref) : option bool :=
  _no_iter_next <$> heap st !! r.

End Pages.

Arguments items {item}.
Arguments pagination {item}.
Arguments next_page_url {item}.
Arguments previous_page_url {item}.
Arguments _next {item}.
Arguments _previous {item}.
Arguments _current_iter {item}.
Arguments _no_iter_next {item}.
Arguments mkPage {item}.
Arguments mkResponse {item}.
Arguments resp_elems {item}.
Arguments resp_metadata {item}.
Arguments resp_no_iter_next {item}.
Arguments mkState {item}.
Arguments heap {item}.
Arguments fetched {item}.
Arguments __init__ {item}.
Arguments has_next_page {item}.
Arguments has_previous_page {item}.
Arguments set_next {item}.
Arguments set_previous {item}.
Arguments set_current_iter {item}.
Arguments set_no_iter_next {item}.
Arguments __len__ {item}.
Arguments page_truthy {item}.
Arguments next_forward {item}.
Arguments ret {item A}.
Arguments bind {item A B}.
Arguments raise {item A}.
Arguments get_page {item}.
Arguments modify {item}.
Arguments alloc {item}.
Arguments resource_class_find {item}.
Arguments _fetch_page {item}.
Arguments next_page {item}.
Arguments previous_page {item}.
Arguments __iter__ {item}.
Arguments PaginatedIterator__init__ {item}.
Arguments pgen_next {item}.
Arguments pgen_run {item}.
Arguments fetched_heap {item}.
Arguments fetch_fails {item}.
Arguments page_len {item}.
Arguments chain {item}.
Arguments chain_end {item}.
Arguments chain_next {item}.
Arguments navigates_here {item}.
Arguments navigates_fetch {item}.
Arguments walked {item}.
Arguments walked_last {item}.
Arguments walked_next {item}.
Arguments chain_urls {item}.
Arguments navigates {item}.
Arguments no_iter_next_of {item}.

End Collection.

(** ** Servers and pages used as examples *)

Module Scenario.

Import PyStr Collection.

  (** One entry of a link header. *)
Definition link (url rel : string) : string :=
  "<" +:+ url +:+ ">; rel=" +:+ dquote +:+ rel +:+ dquote.

  (** The metadata of a page of products whose headers are [headers]. *)
Definition metadata_of (headers : gmap string string) : Metadata :=
  mkMetadata (Some "Product") (Some headers).

Definition with_link (v : string) : Metadata := metadata_of {["Link" := v]}.

  (** Three pages: [u1], [u2] and [u3], the last without a next link. *)
Definition find3 (url : string) : exn + response nat :=
  if String.eqb url "u1" then
    inr (mkResponse [1; 2] (with_link (link "u2" "next")) None)
  else if String.eqb url "u2" then
    inr (mkResponse [3; 4]
           (with_link (link "u1" "previous" +:+ ", " +:+ link "u3" "next")) None)
  else if String.eqb url "u3" then
    inr (mkResponse [5] (with_link (link "u2" "previous")) None)
  else inl (FetchError "404").

  (** What the server answers for [u2] and for [u3]. *)
Definition resp2 : response nat :=
  mkResponse [3; 4]
    (with_link (link "u1" "previous" +:+ ", " +:+ link "u3" "next")) None.

Definition resp3 : response nat :=
  mkResponse [5] (with_link (link "u2" "previous")) None.

  (** The three pages as their constructor builds them. *)
Definition P1 : page nat :=
  mkPage [1; 2] {["next" := "u2"]} (Some "u2") None None None None true.

Definition P2 : page nat :=
  mkPage [3; 4] (<["next" := "u3"]> {["previous" := "u1"]})
         (Some "u3") (Some "u1") None None None true.

Definition P3 : page nat :=
  mkPage [5] {["previous" := "u2"]} None (Some "u2") None None None true.

  (** A server whose page [e2] is empty and has no links, and an empty
      page whose next link is [e2]. *)
Definition find_empty (url : string) : exn + response nat :=
  if String.eqb url "e2" then inr (mkResponse [] (metadata_of ∅) None)
  else inl (FetchError "404").

Definition E1 : page nat :=
  mkPage [] {["next" := "e2"]} (Some "e2") None None None None true.

  (** A page whose two links lead to a URL that the server of the three
      pages does not know. *)
Definition P404 : page nat :=
  mkPage [7] ∅ (Some "zz") (Some "zz") None None None false.

  (** A server whose answers carry a link header without double quotes. *)
Definition find_unquoted (url : string) : exn + response nat :=
  inr (mkResponse [9] (with_link "<u9>; rel=next") None).







End Scenario.

(** * Properties *)

(** ** Facts about the string primitives *)

Module PyStrFacts.

Import PyStr.

#[local] Arguments String.append !_ _ / : simpl nomatch.

Lemma append_nil_r (s : string) : s +:+ "" = s.
Proof. induction s as [|c s IH]; simpl; [done | by rewrite IH]. Qed.

Lemma append_assoc (a b c : string) : (a +:+ b) +:+ c = a +:+ (b +:+ c).
Proof. induction a as [|x a IH]; simpl; [done | by rewrite IH]. Qed.

Lemma strip_prefix_Some (p s r : string) :
  strip_prefix p s = Some r ↔ s = p +:+ r.
Proof.
  revert s; induction p as [|a p IH]; intros s; simpl.
  - split; [by intros [= ->] | by intros ->].
  - destruct s as [|b s]; [split; discriminate |].
    destruct (Ascii.eqb_spec a b) as [->|Hne].
    + rewrite IH. split; [by intros -> | by intros [= ->]].
    + split; [discriminate | intros [= -> _]; done].
Qed.


Lemma lstrip_clean_start (s : string) : clean_start (lstrip s).
Proof.
  induction s as [|c s IH]; simpl; [done |].
  destruct (isspace c) eqn:E; [done | simpl; done].
Qed.

Lemma lstrip_fix (s : string) : clean_start s → lstrip s = s.
Proof. destruct s as [|c s]; simpl; [done | by intros ->]. Qed.

Lemma rstrip_clean_start (s : string) : clean_start s → clean_start (rstrip s).
Proof.
  destruct s as [|c s]; simpl; [done |]. intros Hc.
  destruct (rstrip s); simpl; [by rewrite Hc | done].
Qed.

Lemma rstrip_idemp (s : string) : rstrip (rstrip s) = rstrip s.
Proof.
  induction s as [|c s IH]; simpl; [done |].
  destruct (rstrip s) as [|d r] eqn:E.
  - destruct (isspace c) eqn:Ec; simpl; [done | by rewrite Ec].
  - simpl in *. by rewrite IH.
Qed.

Lemma strip_idemp (s : string) : strip (strip s) = strip s.
Proof.
  unfold strip.
  rewrite (lstrip_fix (rstrip (lstrip s))).
  - apply rstrip_idemp.
  - apply rstrip_clean_start, lstrip_clean_start.
Qed.

  (** Splitting at a one-character separator, one character at a time. *)
Lemma split_go_char (d : ascii) (cur : string) (c : ascii) (s : string) :
  split_go (String d "") 0 cur (String c s) =
    if Ascii.eqb d c then cur :: split_go (String d "") 0 "" s
    else split_go (String d "") 0 (cur +:+ String c "") s.
Proof.
  simpl. unfold startswith. simpl. by destruct (Ascii.eqb d c).
Qed.

Lemma contains_eqb_false (d c : ascii) (s : string) :
  contains d (String c s) = false → Ascii.eqb d c = false ∧ contains d s = false.
Proof.
  simpl. rewrite orb_false_iff, Ascii.eqb_sym. done.
Qed.

Lemma split_go_piece (d : ascii) (cur s : string) :
  contains d s = false →
  split_go (String d "") 0 cur s = [cur +:+ s].
Proof.
  revert cur; induction s as [|c s IH]; intros cur Hs.
  - simpl. by rewrite append_nil_r.
  - apply contains_eqb_false in Hs as [Hc Hs].
    rewrite split_go_char, Hc, IH by done.
    by rewrite append_assoc.
Qed.

Lemma split_go_sep (d : ascii) (cur s rest : string) :
  contains d s = false →
  split_go (String d "") 0 cur (s +:+ String d "" +:+ rest) =
    (cur +:+ s) :: split_go (String d "") 0 "" rest.
Proof.
  revert cur; induction s as [|c s IH]; intros cur Hs.
  - simpl append. rewrite split_go_char, Ascii.eqb_refl. by rewrite append_nil_r.
  - apply contains_eqb_false in Hs as [Hc Hs].
    simpl append. rewrite split_go_char, Hc, IH by done.
    by rewrite append_assoc.
Qed.

  (** Splitting undoes joining when no piece holds the separator. *)
Lemma split_join (d : ascii) (l : list string) :
  l ≠ [] →
  Forall (λ s, contains d s = false) l →
  split (String d "") (join (String d "") l) = l.
Proof.
  unfold split. induction l as [|x l IH]; [done |]. intros _ Hl.
  apply Forall_cons in Hl as [Hx Hl].
  destruct l as [|y l].
  - simpl join. by rewrite split_go_piece.
  - change (join (String d "") (x :: y :: l))
      with (x +:+ String d "" +:+ join (String d "") (y :: l)).
    rewrite split_go_sep by done. simpl append. f_equal. by apply IH.
Qed.

End PyStrFacts.

(** ** Access scopes *)

Module ApiAccessFacts.

Import PyStr PyStrFacts ApiAccess.

#[local] Arguments String.append !_ _ / : simpl nomatch.

Lemma match_resource_Some (s r : string) :
  match_resource s = Some r ↔ r = s ∧ contains newline s = false.
Proof.
  unfold match_resource. destruct (contains newline s); naive_solver.
Qed.

Lemma match_verb_Some (verbs : list string) (s v r : string) :
  match_verb verbs s = Some (v, r) →
  v ∈ verbs ∧ contains newline r = false ∧ s = v +:+ "_" +:+ r.
Proof.
  induction verbs as [|w verbs IH]; simpl; [done |].
  destruct (strip_prefix (w +:+ "_") s) as [rest|] eqn:E.
  - destruct (match_resource rest) as [r'|] eqn:Er.
    + intros [= <- <-]. apply match_resource_Some in Er as [-> Hn].
      apply strip_prefix_Some in E. rewrite append_assoc in E.
      split_and!; [left | done | done].
    + intros H. destruct (IH H) as (? & ? & ?). split_and!; [by right | done..].
  - intros H. destruct (IH H) as (? & ? & ?). split_and!; [by right | done..].
Qed.

  (** What [SCOPE_RE] accepts is the pattern with a resource that may be
      empty. *)
Lemma SCOPE_RE_match_pattern (s : string) :
  is_Some (SCOPE_RE_match s) ↔ scope_pattern s.
Proof.
  unfold SCOPE_RE_match, match_scope, scope_pattern. split.
  - intros [[[u v] r] H].
    destruct (strip_prefix "unauthenticated_" s) as [rest|] eqn:E.
    + destruct (match_verb ["write"; "read"] rest) as [[v' r']|] eqn:Ev.
      * apply match_verb_Some in Ev as (Hv & Hn & ->).
        apply strip_prefix_Some in E.
        exists "unauthenticated_", v', r'. split_and!; [set_solver | done..].
      * destruct (match_verb ["write"; "read"] s) as [[v' r']|] eqn:Ev'; [|done].
        apply match_verb_Some in Ev' as (Hv & Hn & ->).
        exists "", v', r'. split_and!; [set_solver | done..].
    + destruct (match_verb ["write"; "read"] s) as [[v' r']|] eqn:Ev'; [|done].
      apply match_verb_Some in Ev' as (Hv & Hn & ->).
      exists "", v', r'. split_and!; [set_solver | done..].
  - intros (p & v & r & Hp & Hv & Hn & ->).
    assert (Hr : match_resource r = Some r) by (by apply match_resource_Some).
    apply list_elem_of_In in Hp, Hv. simpl in Hp, Hv.
    destruct Hp as [<-|[<-|[]]], Hv as [<-|[<-|[]]]; simpl; rewrite ?Hr; simpl; eauto.
Qed.

Lemma _validate_scopes_in_ok (l : list string) :
  _validate_scopes_in l = inr tt ↔ Forall (λ s, is_Some (SCOPE_RE_match s)) l.
Proof.
  induction l as [|s l IH]; simpl.
  - split; [constructor | done].
  - rewrite Forall_cons. destruct (SCOPE_RE_match s) as [m|].
    + rewrite IH. split; [eauto | by intros [_ ?]].
    + split; [done | by intros [[? [=]] _]].
Qed.

Lemma _validate_scopes_in_error (l : list string) (e : ApiAccessError) :
  _validate_scopes_in l = inl e →
  ∃ s, s ∈ l ∧ SCOPE_RE_match s = None
       ∧ e = mkApiAccessError (invalid_scope_message s).
Proof.
  induction l as [|s l IH]; simpl; [done |].
  destruct (SCOPE_RE_match s) as [m|] eqn:E.
  - intros H. destruct (IH H) as (x & ? & ? & ?). exists x. set_solver.
  - intros [= <-]. exists s. set_solver.
Qed.

Lemma _validate_scopes_ok (X : gset string) :
  _validate_scopes X = inr tt ↔ ∀ s, s ∈ X → is_Some (SCOPE_RE_match s).
Proof.
  unfold _validate_scopes. rewrite _validate_scopes_in_ok, Forall_forall.
  by setoid_rewrite elem_of_elements.
Qed.

Lemma elem_of_sanitize (l : list string) (s : string) :
  s ∈ sanitize l ↔ s ≠ "" ∧ ∃ x, x ∈ l ∧ s = strip x.
Proof.
  unfold sanitize. rewrite list_elem_of_filter, list_elem_of_fmap.
  destruct s; simpl; naive_solver.
Qed.

Lemma sanitize_strip (l : list string) (s : string) :
  s ∈ sanitize l → strip s = s.
Proof.
  rewrite elem_of_sanitize. intros (_ & x & _ & ->). apply strip_idemp.
Qed.

  (** A list of trimmed, non-empty strings is left as it is. *)
Lemma sanitize_fix (l : list string) :
  Forall (λ s, strip s = s ∧ s ≠ "") l → sanitize l = l.
Proof.
  unfold sanitize. induction 1 as [|s l [Hs Hne] _ IH]; [done |].
  rewrite fmap_cons, Hs, filter_cons_True by (by destruct s).
  by rewrite IH.
Qed.

  (** The result of a successful construction, in terms of the sanitized
      entries. *)
Lemma _store_scopes_inr (l : list string) (A : t) :
  _store_scopes l = inr A →
  (∀ s, s ∈ sanitize l → is_Some (SCOPE_RE_match s))
  ∧ (∀ s, s ∈ _compressed_scopes A ↔
          s ∈ sanitize l ∧ ∀ w, w ∈ sanitize l → _get_implied_scope w ≠ Some s)
  ∧ (∀ o, o ∈ _expanded_scopes A ↔
          (∃ s, s ∈ sanitize l ∧ o = Some s)
          ∨ (∃ w, w ∈ sanitize l ∧ o = _get_implied_scope w)).
Proof.
  unfold _store_scopes.
  destruct (_validate_scopes (list_to_set (sanitize l))) as [e|[]] eqn:E; [done |].
  intros [= <-]. simpl.
  pose proof (proj1 (_validate_scopes_ok _) E) as E'. split_and!.
  - intros s Hs. apply E'. set_solver.
  - intros s. rewrite elem_of_filter, elem_of_map, elem_of_list_to_set.
    setoid_rewrite elem_of_list_to_set. naive_solver.
  - intros o. rewrite elem_of_union, !elem_of_map.
    setoid_rewrite elem_of_list_to_set. naive_solver.
Qed.

Lemma _store_scopes_succeeds (l : list string) :
  (∀ s, s ∈ sanitize l → is_Some (SCOPE_RE_match s)) →
  ∃ A, _store_scopes l = inr A.
Proof.
  intros H. unfold _store_scopes.
  destruct (_validate_scopes (list_to_set (sanitize l))) as [e|[]] eqn:E; [|eauto].
  exfalso. assert (_validate_scopes (list_to_set (sanitize l)) = inr tt) as E'.
  { apply _validate_scopes_ok. intros s Hs. apply H. set_solver. }
  congruence.
Qed.

Lemma _store_scopes_inl (l : list string) (e : ApiAccessError) :
  _store_scopes l = inl e →
  ∃ s, s ∈ sanitize l ∧ SCOPE_RE_match s = None
       ∧ e = mkApiAccessError (invalid_scope_message s).
Proof.
  unfold _store_scopes, _validate_scopes.
  destruct (_validate_scopes_in _) as [e'|[]] eqn:E; [|done].
  intros [= <-]. apply _validate_scopes_in_error in E as (s & Hs & ? & ?).
  exists s. set_solver.
Qed.

End ApiAccessFacts.

Module ApiAccessSpec.

Import PyStr PyStrFacts ApiAccess ApiAccessFacts.

#[local] Arguments String.append !_ _ / : simpl nomatch.

(** C1. For two access sets constructed from valid scopes, [covers]
    answers true exactly when every compressed scope of the argument is a
    member of the expanded scopes of the receiver.  In particular the set
    built from [write_orders] covers the set built from [read_orders], and
    the converse call answers false. *)
Theorem covers_iff_compressed_subset_expanded
    (a b : scopes_arg) (A B : t) :
  __init__ a = inr A →
  __init__ b = inr B →
  (covers A B = true ↔
     ∀ s, s ∈ _compressed_scopes B → Some s ∈ _expanded_scopes A)
  ∧ (a = ScopesStr "write_orders" → b = ScopesStr "read_orders" →
     covers A B = true ∧ covers B A = false).
Proof.
  intros Ha Hb. split.
  - unfold covers. rewrite bool_decide_eq_true, elem_of_subseteq. split.
    + intros H s Hs. apply H, elem_of_map. eauto.
    + intros H o (s & -> & Hs)%elem_of_map. by apply H.
  - intros -> ->.
    assert (match __init__ (ScopesStr "write_orders"),
                  __init__ (ScopesStr "read_orders") with
            | inr W, inr R => covers W R = true ∧ covers R W = false
            | _, _ => True
            end) as H by (clear; vm_compute; split; reflexivity).
    by rewrite Ha, Hb in H.
Qed.

Lemma covers_iff_compressed_subset_expanded_witness :
  ∃ A B, __init__ (ScopesStr "write_orders") = inr A
         ∧ __init__ (ScopesStr "read_orders") = inr B
         ∧ covers A B = true ∧ covers B A = false.
Proof.
  destruct (__init__ (ScopesStr "write_orders")) as [e|A] eqn:Ha;
    [by vm_compute in Ha |].
  destruct (__init__ (ScopesStr "read_orders")) as [e|B] eqn:Hb;
    [by vm_compute in Hb |].
  exists A, B. split_and!; [done | done | |].
  - apply (covers_iff_compressed_subset_expanded _ _ A B Ha Hb); reflexivity.
  - apply (covers_iff_compressed_subset_expanded _ _ A B Ha Hb); reflexivity.
Defined.

(** C2. The expanded scopes of the access set built from [read_orders]
    hold [None] besides the scope: [_get_implied_scope] answers [None] for
    a scope that is not a write scope, and [_store_scopes] puts every
    answer in the set of implied scopes. *)
Theorem expanded_scopes_of_read_scope_hold_None :
  ∃ A, __init__ (ScopesStr "read_orders") = inr A
       ∧ None ∈ _expanded_scopes A
       ∧ _get_implied_scope "read_orders" = None
       ∧ elements (_expanded_scopes A) = [Some "read_orders"; None].
Proof.
  destruct (__init__ (ScopesStr "read_orders")) as [e|A] eqn:Ha;
    [by vm_compute in Ha |].
  exists A. split; [done |].
  assert (match __init__ (ScopesStr "read_orders") with
          | inr A => elements (_expanded_scopes A) = [Some "read_orders"; None]
          | inl _ => True
          end) as H by (clear; vm_compute; reflexivity).
  rewrite Ha in H. split_and!; [| done | done].
  apply elem_of_elements. rewrite H. apply list_elem_of_further, list_elem_of_here.
Qed.

(** X9. The strings among the expanded scopes of a validly constructed
    access set are its compressed scopes and the read scopes implied by
    the write scopes among its entries. *)
Lemma expanded_scopes_strings (scopes : scopes_arg) (A : t) (s : string) :
  __init__ scopes = inr A →
  Some s ∈ _expanded_scopes A ↔
    s ∈ _compressed_scopes A
    ∨ ∃ w, w ∈ sanitize (entries scopes) ∧ _get_implied_scope w = Some s.
Proof.
  intros H. apply _store_scopes_inr in H as (_ & Hc & He).
  rewrite He, Hc. split.
  - intros [(x & Hx & [= <-])|(w & Hw & Hs)]; [|by eauto].
    destruct (decide (Exists (λ w, _get_implied_scope w = Some s)
                             (sanitize (entries scopes)))) as [Hy|Hn].
    + right. apply Exists_exists in Hy. exact Hy.
    + left. split; [done |]. intros w Hw Hs. apply Hn, Exists_exists. eauto.
  - intros [[Hs _]|(w & Hw & Hs)]; [left | right]; eauto.
Qed.

  (** [None] is among the expanded scopes exactly when some scope is not
      a write scope. *)
Lemma expanded_scopes_None (scopes : scopes_arg) (A : t) :
  __init__ scopes = inr A →
  None ∈ _expanded_scopes A ↔
    ∃ w, w ∈ sanitize (entries scopes) ∧ _get_implied_scope w = None.
Proof.
  intros H. apply _store_scopes_inr in H as (_ & _ & He).
  rewrite He. naive_solver.
Qed.

Lemma implied_scope_of_write (p x : string) :
  p ∈ [""; "unauthenticated_"] →
  is_Some (SCOPE_RE_match (p +:+ "write_" +:+ x)) →
  _get_implied_scope (p +:+ "write_" +:+ x) = Some (p +:+ "read_" +:+ x).
Proof.
  intros Hp. apply list_elem_of_In in Hp. simpl in Hp.
  unfold _get_implied_scope, IMPLIED_SCOPE_RE_match, SCOPE_RE_match, match_scope.
  destruct Hp as [<-|[<-|[]]]; simpl; unfold match_resource;
    destruct (contains newline x); simpl; by intros [? ?].
Qed.

(** X10. For a write scope among the entries of a validly constructed
    access set, the read scope of the same resource and prefix is among
    the expanded scopes and not among the compressed ones. *)
Lemma write_scope_implies_read (scopes : scopes_arg) (A : t) (p x : string) :
  __init__ scopes = inr A →
  p ∈ [""; "unauthenticated_"] →
  p +:+ "write_" +:+ x ∈ sanitize (entries scopes) →
  Some (p +:+ "read_" +:+ x) ∈ _expanded_scopes A
  ∧ p +:+ "read_" +:+ x ∉ _compressed_scopes A.
Proof.
  intros HA Hp Hw. pose proof (_store_scopes_inr _ _ HA) as (Hv & Hc & He).
  pose proof (implied_scope_of_write p x Hp (Hv _ Hw)) as Hi. split.
  - apply He. right. eauto.
  - rewrite Hc. intros [_ Hn]. by apply (Hn _ Hw).
Qed.

(** C3, as the code has it. Construction succeeds exactly when every
    entry that remains after trimming and discarding the empty ones has
    the form optional [unauthenticated_], [write] or [read], [_] and a
    resource without a newline, where the resource may be empty.  When it
    fails, the error names an entry that does not have that form, and no
    access set is produced. *)
Theorem construction_validates_every_entry (scopes : scopes_arg) :
  ((∃ A, __init__ scopes = inr A) ↔
     ∀ s, s ∈ sanitize (entries scopes) → scope_pattern s)
  ∧ (∀ e, __init__ scopes = inl e →
       ∃ s, s ∈ sanitize (entries scopes) ∧ ¬ scope_pattern s
            ∧ e = mkApiAccessError ("'" +:+ s +:+ "' is not a valid access scope")).
Proof.
  unfold __init__. split; [split |].
  - intros [A H] s Hs. apply _store_scopes_inr in H as (H & _).
    by apply SCOPE_RE_match_pattern, H.
  - intros H. apply _store_scopes_succeeds. intros s Hs.
    by apply SCOPE_RE_match_pattern, H.
  - intros e H. apply _store_scopes_inl in H as (s & Hs & Hm & ->). exists s.
    split_and!; [done | | done].
    rewrite <- SCOPE_RE_match_pattern, Hm. by intros [? [=]].
Qed.

Lemma construction_validates_every_entry_witness :
  (∃ A, __init__ (ScopesStr "read_orders, write_products") = inr A)
  ∧ ∃ s, s ∈ sanitize (entries (ScopesStr "read_orders,foo")) ∧ ¬ scope_pattern s
         ∧ __init__ (ScopesStr "read_orders,foo")
           = inl (mkApiAccessError ("'" +:+ s +:+ "' is not a valid access scope")).
Proof.
  split.
  - destruct (__init__ (ScopesStr "read_orders, write_products")) as [e|A] eqn:E;
      [by vm_compute in E | eauto].
  - destruct (__init__ (ScopesStr "read_orders,foo")) as [e|A] eqn:E;
      [| by vm_compute in E].
    destruct (proj2 (construction_validates_every_entry
                       (ScopesStr "read_orders,foo")) e E) as (s & Hs & Hp & ->).
    eauto.
Defined.

(** C3, as stated, fails: the entry [read_] has an empty resource, so it
    does not match the pattern with a resource of at least one character,
    and yet construction succeeds. *)
Lemma empty_resource_is_accepted :
  (∃ A, __init__ (ScopesList ["read_"]) = inr A)
  ∧ ¬ (∀ s, s ∈ sanitize (entries (ScopesList ["read_"])) → spec_scope_pattern s).
Proof.
  split.
  - destruct (__init__ (ScopesList ["read_"])) as [e|A] eqn:E;
      [by vm_compute in E | eauto].
  - intros H. destruct (H "read_") as (p & v & r & Hp & Hv & Hr & _ & Heq).
    { vm_compute. left. }
    apply list_elem_of_In in Hp, Hv. simpl in Hp, Hv.
    destruct Hp as [<-|[<-|[]]], Hv as [<-|[<-|[]]]; simpl in Heq;
      try discriminate.
    injection Heq as <-. done.
Qed.

  (** A write scope is not the implied scope of any scope, and a scope
      that implies another one is a write scope; what matters below is
      only that compressed scopes are not implied by compressed scopes. *)
Lemma compressed_not_implied (l : list string) (A : t) (s w : string) :
  _store_scopes l = inr A →
  s ∈ _compressed_scopes A → w ∈ _compressed_scopes A →
  _get_implied_scope w ≠ Some s.
Proof.
  intros H Hs Hw. apply _store_scopes_inr in H as (_ & Hc & _).
  apply Hc in Hs as [_ Hs]. apply Hc in Hw as [Hw _]. by apply Hs.
Qed.

(** C7, as the code has it. For an access set constructed from valid
    scopes none of whose compressed scopes holds the delimiter, parsing
    the string that joins the compressed scopes, in whatever order the set
    yields them, gives an access set equal to the first. *)
Theorem str_round_trip_without_delimiter
    (scopes : scopes_arg) (A : t) (order : list string) :
  __init__ scopes = inr A →
  (∀ s, s ∈ _compressed_scopes A → contains ","%char s = false) →
  order ≡ₚ elements (_compressed_scopes A) →
  ∃ A', __init__ (ScopesStr (__str__in order)) = inr A' ∧ __eq__ A' A = true.
Proof.
  unfold __init__. intros HA Hcomma Hperm.
  assert (Hmem : ∀ s, s ∈ order ↔ s ∈ _compressed_scopes A).
  { intros s. by rewrite Hperm, elem_of_elements. }
  pose proof (_store_scopes_inr _ _ HA) as (Hvalid & Hc & _).
  assert (Hsan : sanitize (entries (ScopesStr (__str__in order))) = order).
  { destruct order as [|x order'] eqn:Eo; [reflexivity |]. rewrite <- Eo in *.
    unfold entries, __str__in, SCOPE_DELIMITER.
    change "," with (String ","%char "").
    rewrite split_join.
    - apply sanitize_fix, Forall_forall. intros s Hs.
      apply Hmem, Hc in Hs as [Hs _]. split; [by eapply sanitize_strip |].
      by apply elem_of_sanitize in Hs as [? _].
    - by rewrite Eo.
    - apply Forall_forall. intros s Hs. by apply Hcomma, Hmem. }
  destruct (_store_scopes_succeeds (entries (ScopesStr (__str__in order))))
    as [A' HA'].
  { rewrite Hsan. intros s Hs. apply Hvalid. by apply Hmem, Hc in Hs as [? _]. }
  exists A'. split; [done |].
  unfold __eq__. apply bool_decide_eq_true, set_eq. intros s.
  pose proof (_store_scopes_inr _ _ HA') as (_ & Hc' & _).
  rewrite Hc', Hsan, Hmem. split; [by intros [? _] |].
  intros Hs. split; [done |]. intros w Hw.
  eapply compressed_not_implied; [exact HA | done | by apply Hmem].
Qed.

Lemma str_round_trip_without_delimiter_witness :
  ∃ A A', __init__ (ScopesStr "read_orders,write_orders") = inr A
          ∧ __init__ (ScopesStr (__str__ A)) = inr A' ∧ __eq__ A' A = true.
Proof.
  destruct (__init__ (ScopesStr "read_orders,write_orders")) as [e|A] eqn:HA;
    [by vm_compute in HA |].
  assert (Hel : elements (_compressed_scopes A) = ["write_orders"]).
  { assert (match __init__ (ScopesStr "read_orders,write_orders") with
            | inr A => elements (_compressed_scopes A) = ["write_orders"]
            | inl _ => True
            end) as H by (clear; vm_compute; reflexivity).
    by rewrite HA in H. }
  destruct (str_round_trip_without_delimiter
              (ScopesStr "read_orders,write_orders") A
              (elements (_compressed_scopes A)) HA) as (A' & H1 & H2).
  - intros s Hs. apply elem_of_elements in Hs. rewrite Hel in Hs.
    apply list_elem_of_singleton in Hs as ->. reflexivity.
  - reflexivity.
  - exists A, A'. split; [reflexivity | split; [exact H1 | exact H2]].
Defined.

(** C7, as stated, fails: the access set built from the one scope
    [read_a,b], given as a collection, is valid, and the string it prints
    is split at its comma when parsed, which fails on the entry [b]. *)
Lemma str_round_trip_fails_with_delimiter :
  ∃ A, __init__ (ScopesList ["read_a,b"]) = inr A
       ∧ __str__ A = "read_a,b"
       ∧ __init__ (ScopesStr (__str__ A))
         = inl (mkApiAccessError "'b' is not a valid access scope").
Proof.
  destruct (__init__ (ScopesList ["read_a,b"])) as [e|A] eqn:HA;
    [by vm_compute in HA |].
  exists A. split; [done |].
  assert (match __init__ (ScopesList ["read_a,b"]) with
          | inr A => __str__ A = "read_a,b"
          | inl _ => True
          end) as H by (clear; vm_compute; reflexivity).
  rewrite HA in H. split; [done |]. rewrite H. clear. by vm_compute.
Qed.

End ApiAccessSpec.

(** ** Pagination *)

Module CollectionFacts.

Import PyStr Collection.

  (** Lookups and updates in a store that was extended at its end. *)
Ltac heap_simpl :=
    repeat first
      [ rewrite length_insert
      | rewrite Nat.sub_diag
      | rewrite lookup_app_l by (rewrite ?length_insert; lia)
      | rewrite lookup_app_r by (rewrite ?length_insert; lia)
      | rewrite list_lookup_insert_eq by (rewrite ?length_insert; lia)
      | rewrite list_lookup_insert_ne by lia
      | rewrite insert_app_l by (rewrite ?length_insert; lia)
      | rewrite insert_app_r_alt by (rewrite ?length_insert; lia)
      | progress simpl ].

Section Facts.

Context {item : Type} (find : string → exn + response item).

Implicit Types (st : state item) (p np : page item) (self q r : ref).
Implicit Types (h : list (page item)).

Lemma __init___fields (elems : list item) (md : Metadata) (kw : option bool) p :
  __init__ elems md kw = inr p →
  items p = elems ∧ _next p = None ∧ _previous p = None
  ∧ _current_iter p = None ∧ _no_iter_next p = default true kw.
Proof.
  unfold __init__. destruct (md_resource_class md); [|done].
  destruct (_parse_pagination md); [done |]. by intros [= <-].
Qed.

Lemma _fetch_page_ok st self p url (resp : response item) np (no_cache : bool) :
  heap st !! self = Some p →
  find url = inr resp →
  __init__ (resp_elems resp) (resp_metadata resp) (resp_no_iter_next resp) = inr np →
  _fetch_page find self url no_cache st =
    (inr (length (heap st)),
     mkState (fetched_heap st self p np no_cache) (fetched st ++ [url])).
Proof.
  intros Hp Hf Hi.
  assert (Hlt : self < length (heap st)) by (by eapply lookup_lt_Some).
  unfold _fetch_page, fetched_heap, bind, resource_class_find, alloc. rewrite Hf, Hi.
  destruct no_cache; simpl; unfold bind, modify, get_page, ret; simpl.
  - heap_simpl. rewrite Hp. heap_simpl. by rewrite list_insert_id.
  - heap_simpl. rewrite Hp. heap_simpl. done.
Qed.

  (** A fetch that fails leaves the store as it was and records the
      request. *)
Lemma _fetch_page_inv st self p url (no_cache : bool) (res : exn + ref) st' :
  heap st !! self = Some p →
  _fetch_page find self url no_cache st = (res, st') →
  fetched st' = fetched st ++ [url]
  ∧ match res with
    | inr q =>
        ∃ resp np,
          find url = inr resp
          ∧ __init__ (resp_elems resp) (resp_metadata resp) (resp_no_iter_next resp)
            = inr np
          ∧ q = length (heap st)
          ∧ heap st' = fetched_heap st self p np no_cache
    | inl e => heap st' = heap st
    end.
Proof.
  intros Hp H.
  destruct (find url) as [e|resp] eqn:Hf.
  { unfold _fetch_page, bind, resource_class_find in H. rewrite Hf in H.
    by injection H as <- <-. }
  destruct (__init__ (resp_elems resp) (resp_metadata resp) (resp_no_iter_next resp))
    as [e|np] eqn:Hi.
  { unfold _fetch_page, bind, resource_class_find in H. rewrite Hf, Hi in H.
    by injection H as <- <-. }
  rewrite (_fetch_page_ok _ _ _ _ _ _ _ Hp Hf Hi) in H. injection H as <- <-.
  split; [done |]. by exists resp, np.
Qed.

Lemma next_page_unfold st self p (no_cache : bool) :
  heap st !! self = Some p →
  next_page find self no_cache st =
    if page_truthy (heap st) (_next p) then
      match _next p with
      | Some r => (inr r, st)
      | None => (inl DanglingReference, st)
      end
    else if negb (has_next_page p) then (inl (IndexError "No next page"), st)
    else _fetch_page find self (default "" (next_page_url p)) no_cache st.
Proof.
  intros Hp. unfold next_page, bind, get_page. rewrite Hp.
  by destruct (page_truthy (heap st) (_next p)), (_next p), (has_next_page p).
Qed.

Lemma previous_page_unfold st self p (no_cache : bool) :
  heap st !! self = Some p →
  previous_page find self no_cache st =
    if page_truthy (heap st) (_previous p) then
      match _previous p with
      | Some r => (inr r, st)
      | None => (inl DanglingReference, st)
      end
    else if negb (has_previous_page p) then (inl (IndexError "No previous page"), st)
    else _fetch_page find self (default "" (previous_page_url p)) no_cache st.
Proof.
  intros Hp. unfold previous_page, bind, get_page. rewrite Hp.
  by destruct (page_truthy (heap st) (_previous p)), (_previous p),
       (has_previous_page p).
Qed.

Lemma navigation_dangling st self (no_cache : bool) :
  heap st !! self = None →
  next_page find self no_cache st = (inl DanglingReference, st)
  ∧ previous_page find self no_cache st = (inl DanglingReference, st).
Proof.
  intros Hp. unfold next_page, previous_page, bind, get_page. by rewrite Hp.
Qed.

  (** A cached page that is not empty is returned, whatever the link. *)
Lemma next_page_cached st self p n (no_cache : bool) :
  heap st !! self = Some p → _next p = Some n →
  page_truthy (heap st) (Some n) = true →
  next_page find self no_cache st = (inr n, st).
Proof.
  intros Hp Hn Ht. rewrite (next_page_unfold _ _ _ _ Hp), Hn, Ht. done.
Qed.

Lemma previous_page_cached st self p n (no_cache : bool) :
  heap st !! self = Some p → _previous p = Some n →
  page_truthy (heap st) (Some n) = true →
  previous_page find self no_cache st = (inr n, st).
Proof.
  intros Hp Hn Ht. rewrite (previous_page_unfold _ _ _ _ Hp), Hn, Ht. done.
Qed.

  (** Without a cached page and without a link, the call raises. *)
Lemma next_page_absent st self p (no_cache : bool) :
  heap st !! self = Some p → _next p = None → has_next_page p = false →
  next_page find self no_cache st = (inl (IndexError "No next page"), st).
Proof.
  intros Hp Hn Hl. rewrite (next_page_unfold _ _ _ _ Hp), Hn, Hl. done.
Qed.

Lemma previous_page_absent st self p (no_cache : bool) :
  heap st !! self = Some p → _previous p = None → has_previous_page p = false →
  previous_page find self no_cache st = (inl (IndexError "No previous page"), st).
Proof.
  intros Hp Hn Hl. rewrite (previous_page_unfold _ _ _ _ Hp), Hn, Hl. done.
Qed.

  (** A page that holds items is true. *)
Lemma page_truthy_items (h : list (page item)) n pn :
  h !! n = Some pn → items pn ≠ [] → page_truthy h (Some n) = true.
Proof.
  intros Hn Hi. unfold page_truthy.
  assert (0 < length h) as Hl by (apply lookup_lt_Some in Hn; lia).
  destruct (length h) as [|f]; [lia |]. simpl. rewrite Hn.
  destruct (items pn); [done |]. simpl.
  apply negb_true_iff, Nat.eqb_neq. lia.
Qed.

Lemma lookup_fetched_heap_new st self p np (no_cache : bool) :
  heap st !! self = Some p →
  fetched_heap st self p np no_cache !! length (heap st)
  = Some (set_no_iter_next (_no_iter_next p)
            (if no_cache then np else set_previous (Some self) np)).
Proof.
  intros Hp. unfold fetched_heap. by heap_simpl.
Qed.

Lemma lookup_fetched_heap_self st self p np (no_cache : bool) :
  heap st !! self = Some p →
  fetched_heap st self p np no_cache !! self
  = Some (if no_cache then p else set_next (Some (length (heap st))) p).
Proof.
  intros Hp. apply lookup_lt_Some in Hp as Hlt. unfold fetched_heap. by heap_simpl.
Qed.

  (** One fetching call hands the flag of the caller to the new page. *)
Lemma fetch_step_no_iter_next st r (no_cache : bool) q st1 :
  next_page find r no_cache st = (inr q, st1)
  ∨ previous_page find r no_cache st = (inr q, st1) →
  fetched st1 ≠ fetched st →
  is_Some (heap st1 !! q) ∧ no_iter_next_of st1 q = no_iter_next_of st r.
Proof.
  intros H Hf. destruct (heap st !! r) as [p|] eqn:Hp.
  2: { destruct (navigation_dangling st r no_cache Hp) as [H1 H2].
       rewrite H1, H2 in H. by destruct H. }
  assert (∃ url, _fetch_page find r url no_cache st = (inr q, st1)) as [url Hu].
  { destruct H as [H|H].
    - rewrite (next_page_unfold _ _ _ _ Hp) in H.
      destruct (page_truthy (heap st) (_next p)).
      { destruct (_next p); injection H as <- <-; done. }
      destruct (has_next_page p); simpl in H; [eauto | done].
    - rewrite (previous_page_unfold _ _ _ _ Hp) in H.
      destruct (page_truthy (heap st) (_previous p)).
      { destruct (_previous p); injection H as <- <-; done. }
      destruct (has_previous_page p); simpl in H; [eauto | done]. }
  apply (_fetch_page_inv _ _ _ _ _ _ _ Hp) in Hu
    as (_ & resp & np & _ & _ & -> & Hh).
  unfold no_iter_next_of. rewrite Hh, Hp, (lookup_fetched_heap_new _ _ _ _ _ Hp).
  split; [eauto |]. simpl. by destruct no_cache.
Qed.

Lemma __len___out_of_range (fuel : nat) h (r : ref) :
  length h ≤ r → __len__ fuel h r = 0.
Proof.
  intros Hr. destruct fuel; [done |]. simpl.
  by rewrite (lookup_ge_None_2 h r Hr).
Qed.

(** X22. When every cached next page is newer than the page that caches
    it, the walk of [len] along the cached pages ends before its bound:
    every bound that covers the rest of the store gives the same
    length. *)
Lemma __len___fuel_enough h :
  next_forward h →
  ∀ (f1 f2 : nat) (r : ref),
    length h - r ≤ f1 → length h - r ≤ f2 →
    __len__ f1 h r = __len__ f2 h r.
Proof.
  intros Hfw. induction f1 as [|f1 IH]; intros f2 r H1 H2.
  - rewrite !__len___out_of_range by lia. done.
  - destruct f2 as [|f2]; [rewrite !__len___out_of_range by lia; done |].
    simpl. destruct (h !! r) as [p|] eqn:Hp; [|done].
    destruct (_next p) as [n|] eqn:Hn; [|done].
    pose proof (Hfw r p n Hp Hn). apply lookup_lt_Some in Hp.
    rewrite (IH f2 n) by lia. done.
Qed.

Lemma next_forward_fetched_heap st (self : ref) p np (no_cache : bool) :
  next_forward (heap st) →
  heap st !! self = Some p →
  _next np = None →
  next_forward (fetched_heap st self p np no_cache).
Proof.
  intros Hfw Hp Hnp r pr n Hr Hn. apply lookup_lt_Some in Hp as Hlt.
  unfold fetched_heap in Hr.
  destruct (decide (r < length (heap st))) as [Hin|Hout].
  - rewrite lookup_app_l in Hr by (by rewrite length_insert).
    destruct (decide (r = self)) as [->|Hne].
    + rewrite list_lookup_insert_eq in Hr by done. injection Hr as <-.
      destruct no_cache; simpl in Hn; [by eapply Hfw | injection Hn as <-; done].
    + rewrite list_lookup_insert_ne in Hr by done. by eapply Hfw.
  - rewrite lookup_app_r in Hr by (rewrite length_insert; lia).
    rewrite length_insert in Hr.
    destruct (r - length (heap st)) as [|k] eqn:Hk; [|by destruct k].
    injection Hr as <-. by destruct no_cache; simpl in Hn; rewrite Hnp in Hn.
Qed.

(** X21. [next_page] and [previous_page], whatever they return or raise,
    keep every cached next page newer than the page that caches it, so
    the cached next pages never form a cycle. *)
Lemma next_forward_navigation st (self : ref) (no_cache : bool)
    (res : exn + ref) st' :
  next_forward (heap st) →
  next_page find self no_cache st = (res, st')
  ∨ previous_page find self no_cache st = (res, st') →
  next_forward (heap st').
Proof.
  intros Hfw H. destruct (heap st !! self) as [p|] eqn:Hp.
  2: { destruct (navigation_dangling st self no_cache Hp) as [H1 H2].
       rewrite H1, H2 in H. by destruct H as [[= _ <-]|[= _ <-]]. }
  assert (st' = st ∨ ∃ url, _fetch_page find self url no_cache st = (res, st'))
    as [->|[url Hu]]; [| done |].
  { destruct H as [H|H].
    - rewrite (next_page_unfold _ _ _ _ Hp) in H.
      destruct (page_truthy (heap st) (_next p)).
      { left. by destruct (_next p); injection H as <- <-. }
      destruct (has_next_page p); simpl in H; [eauto |].
      left. by injection H as <- <-.
    - rewrite (previous_page_unfold _ _ _ _ Hp) in H.
      destruct (page_truthy (heap st) (_previous p)).
      { left. by destruct (_previous p); injection H as <- <-. }
      destruct (has_previous_page p); simpl in H; [eauto |].
      left. by injection H as <- <-. }
  apply (_fetch_page_inv _ _ _ _ _ _ _ Hp) in Hu as [_ Hu].
  destruct res as [e|q].
  - by rewrite Hu.
  - destruct Hu as (resp & np & _ & Hi & _ & ->).
    apply next_forward_fetched_heap; [done | done |].
    by eapply __init___fields.
Qed.
End Facts.

End CollectionFacts.

Module CollectionChains.

Import PyStr Collection CollectionFacts.

Section Chains.

Context {item : Type} (find : string → exn + response item).

Implicit Types (st : state item) (p np : page item) (ps : list (page item)).

  (** The page iterator, suspended at a page without a cached next page,
      yields the pages of the chain behind it and then ends. *)
Lemma pgen_run_chain ps : ∀ st (cur : ref) p (fuel : nat),
  heap st !! cur = Some p →
  _next p = None →
  chain find (next_page_url p) ps →
  length ps < fuel →
  pgen_run find fuel (GYielded cur) st =
    (seq (length (heap st)) (length ps), Finished,
     mkState (heap st ++ (set_no_iter_next (_no_iter_next p) <$> ps))
             (fetched st ++ chain_urls (next_page_url p) ps)).
Proof.
  induction ps as [|np ps IH]; intros st cur p fuel Hp Hn Hc Hfuel;
    inversion Hc; subst; (destruct fuel as [|fuel]; [simpl in Hfuel; lia |]).
  - simpl. rewrite (next_page_absent find _ _ _ _ Hp Hn) by done.
    rewrite !app_nil_r. by destruct st.
  - match goal with H : Some _ = next_page_url p |- _ => symmetry in H; rename H into Hu end.
    cbn [pgen_run pgen_next].
    rewrite (next_page_unfold find _ _ _ _ Hp), Hn. simpl.
    unfold has_next_page. rewrite Hu. simpl.
    match goal with H : truthy _ = true |- _ => rewrite H end. simpl.
    erewrite _fetch_page_ok by done.
    unfold fetched_heap. rewrite list_insert_id by done.
    erewrite IH; cycle 1.
    + simpl. rewrite lookup_app_r by done. rewrite Nat.sub_diag. done.
    + simpl. by eapply __init___fields.
    + done.
    + simpl in Hfuel. lia.
    + simpl. rewrite length_app. simpl.
      rewrite <- !app_assoc. simpl.
      replace (length (heap st) + 1) with (S (length (heap st))) by lia. done.
Qed.

  (** The flattening iteration of a page in auto-advance mode without a
      cached next page yields the items of the page and of the chain
      behind it. *)
Lemma __iter___chain ps : ∀ st (r : ref) p (fuel : nat),
  heap st !! r = Some p →
  _no_iter_next p = false →
  _next p = None →
  chain find (next_page_url p) ps →
  length ps < fuel →
  ∃ st', __iter__ find fuel r st
         = (items p ++ concat (items <$> ps), Finished, st')
       ∧ fetched st' = fetched st ++ chain_urls (next_page_url p) ps.
Proof.
  induction ps as [|np ps IH]; intros st r p fuel Hp Hf Hn Hc Hfuel;
    inversion Hc; subst; (destruct fuel as [|fuel]; [simpl in Hfuel; lia |]).
  - simpl. unfold get_page. rewrite Hp, Hf.
    destruct (page_truthy (heap st) (_current_iter p)); simpl; unfold bind.
    + simpl. rewrite (next_page_absent find _ _ _ _ Hp Hn) by done.
      rewrite !app_nil_r. eauto.
    + unfold modify. rewrite Hp.
      rewrite (next_page_absent find _ _ (set_current_iter (Some r) p));
        [rewrite !app_nil_r; eauto | | done | done].
      simpl. apply list_lookup_insert_eq. by eapply lookup_lt_Some.
  - match goal with H : Some _ = next_page_url p |- _ => symmetry in H; rename H into Hu end.
    assert (Hlt : r < length (heap st)) by (by eapply lookup_lt_Some).
    cbn [__iter__]. unfold get_page at 1. rewrite Hp, Hf.
    (* the store after the first statement of the [try] block *)
    set (enter := if negb (page_truthy (heap st) (_current_iter p))
                  then modify r (set_current_iter (Some r)) else ret ()).
    assert (∃ pe ste, enter st = (inr (), ste)
              ∧ heap ste !! r = Some pe ∧ length (heap ste) = length (heap st)
              ∧ fetched ste = fetched st
              ∧ _next pe = None ∧ next_page_url pe = next_page_url p
              ∧ _no_iter_next pe = false ∧ items pe = items p)
      as (pe & ste & He & Hpe & Hle & Hfe & Hne & Hue & Hfl & Hie).
    { unfold enter. destruct (page_truthy (heap st) (_current_iter p)); simpl.
      - exists p, st. done.
      - unfold modify. rewrite Hp. eexists _, _. split; [done |]. simpl.
        rewrite list_lookup_insert_eq, length_insert by done. done. }
    unfold bind at 1. rewrite He.
    rewrite (next_page_unfold find _ _ _ _ Hpe), Hne. simpl.
    unfold has_next_page. rewrite Hue, Hu. simpl.
    match goal with H : truthy _ = true |- _ => rewrite H end. simpl.
    erewrite _fetch_page_ok by done.
    unfold modify at 1. cbn [heap fetched].
    rewrite (lookup_fetched_heap_self _ _ _ _ _ Hpe).
    edestruct (IH (mkState
        (<[r := set_current_iter (Some (length (heap ste)))
                  (set_next (Some (length (heap ste))) pe)]>
           (fetched_heap ste r pe np false))
        (fetched ste ++ [u])) (length (heap ste))
        (set_no_iter_next (_no_iter_next pe) (set_previous (Some r) np)) fuel)
      as (st' & Hrun & Hfetched).
    + cbn [heap]. rewrite list_lookup_insert_ne by lia.
      exact (lookup_fetched_heap_new ste r pe np false Hpe).
    + simpl. done.
    + simpl. by eapply __init___fields.
    + simpl. done.
    + simpl in Hfuel. lia.
    + rewrite Hrun. exists st'. split.
      * simpl. done.
      * rewrite Hfetched. simpl. rewrite Hfe, <- app_assoc. done.
Qed.

End Chains.
End CollectionChains.

Module CollectionSpec.

Import PyStr Collection Scenario CollectionFacts CollectionChains.

Section Spec.

Context {item : Type} (find : string → exn + response item).

Implicit Types (st : state item) (p np : page item) (ps : list (page item)).

(** C6. The page iterator first yields the page it wraps; every later
    step calls [next_page(no_cache=True)] on the page yielded last and
    yields the result, and when that call raises [IndexError] the
    generator returns without an error.  Started on a page without a
    cached next page, it yields that page and then the pages of the chain
    behind it, each fetched once: for a chain of two further pages, the
    three pages in order. *)
Theorem page_iterator_yields_each_page st (r : ref) p ps (fuel : nat) :
  heap st !! r = Some p →
  _next p = None →
  chain find (next_page_url p) ps →
  2 + length ps ≤ fuel →
  let it := mkPaginatedIterator r in
  let st0 := mkState (<[r := set_no_iter_next true p]> (heap st)) (fetched st) in
  PaginatedIterator__init__ (APage r) st = (inr it, st0)
  ∧ pgen_next find (GStart it) st0 = (inr (Some r), GYielded r, st0)
  ∧ (∀ cur s,
       pgen_next find (GYielded cur) s =
         match next_page find cur true s with
         | (inr q, s') => (inr (Some q), GYielded q, s')
         | (inl (IndexError _), s') => (inr None, GDone, s')
         | (inl e, s') => (inl e, GDone, s')
         end)
  ∧ pgen_run find fuel (GStart it) st0 =
      (r :: seq (length (heap st)) (length ps), Finished,
       mkState (<[r := set_no_iter_next true p]> (heap st)
                ++ (set_no_iter_next true <$> ps))
               (fetched st ++ chain_urls (next_page_url p) ps)).
Proof.
  intros Hp Hn Hc Hfuel it st0.
  assert (Hlt : r < length (heap st)) by (by eapply lookup_lt_Some).
  split_and!.
  - unfold PaginatedIterator__init__, bind, modify. by rewrite Hp.
  - done.
  - done.
  - destruct fuel as [|fuel]; [lia |]. cbn [pgen_run pgen_next it collection].
    rewrite (pgen_run_chain find ps st0 r (set_no_iter_next true p) fuel).
    + subst st0. simpl. by rewrite length_insert.
    + subst st0. simpl. by apply list_lookup_insert_eq.
    + done.
    + done.
    + lia.
Qed.

(** C5, as the code has it. A page constructed without the keyword
    [no_iter_next] has the flag set, and the iteration of a page whose
    flag is set yields the items of that page only and fetches nothing.
    When the flag is cleared, the iteration of a page without a cached
    next page yields its items and then those of the pages behind it,
    fetching each once, until a page has no next link. *)
Theorem iteration_advances_only_when_enabled st (r : ref) p :
  heap st !! r = Some p →
  (∀ elems md p0, __init__ (item := item) elems md None = inr p0 →
                  _no_iter_next p0 = true)
  ∧ (_no_iter_next p = true →
     ∀ fuel, __iter__ find (S fuel) r st = (items p, Finished, st))
  ∧ (_no_iter_next p = false → _next p = None →
     ∀ ps (fuel : nat),
       chain find (next_page_url p) ps → length ps < fuel →
       ∃ st', __iter__ find fuel r st
              = (items p ++ concat (items <$> ps), Finished, st')
            ∧ fetched st' = fetched st ++ chain_urls (next_page_url p) ps).
Proof.
  intros Hp. split_and!.
  - intros elems md p0 H. by apply __init___fields in H as (_ & _ & _ & _ & ->).
  - intros Hf fuel. simpl. unfold get_page. by rewrite Hp, Hf.
  - intros Hf Hn ps fuel Hc Hfuel. by eapply __iter___chain.
Qed.

(** C10. Along any sequence of calls of [next_page] and [previous_page],
    with whatever [no_cache], in which each call fetches the page it
    returns and is made on the page the call before returned, the page
    reached has the flag [_no_iter_next] that the first page had. *)
Theorem navigation_inherits_no_iter_next st (r : ref) st' (r' : ref) :
  navigates find st r st' r' →
  is_Some (heap st !! r) →
  is_Some (heap st' !! r')
  ∧ no_iter_next_of st' r' = no_iter_next_of st r.
Proof.
  induction 1 as [st r|st r nc st1 q st2 r2 Hstep Hfetched _ IH]; [done |].
  intros _. destruct (fetch_step_no_iter_next find _ _ _ _ _ Hstep Hfetched)
    as [Hq Hflag].
  destruct (IH Hq) as [Hr2 Hflag2]. split; [done |]. by rewrite Hflag2.
Qed.


(** C8, as the code has it. The link header is the value of the key
    [Link] when that value is not empty, otherwise the value of the key
    [link]; no other casing is looked up.  When neither key has a value
    that is not empty, and also when the metadata has no headers, there
    are no links and no error.  A header found is split into its entries
    and each entry gives one link under its relation name. *)
Theorem pagination_links_from_Link_or_link (md : Metadata) (v : string) :
  let headers := default ∅ (md_headers md) in
  (headers !! "Link" = Some v → v ≠ "" →
     _parse_pagination md = parse_link_header v)
  ∧ (opt_truthy (headers !! "Link") = false →
     headers !! "link" = Some v → v ≠ "" →
     _parse_pagination md = parse_link_header v)
  ∧ (opt_truthy (headers !! "Link") = false →
     opt_truthy (headers !! "link") = false →
     _parse_pagination md = inr ∅)
  ∧ (md_headers md = None → _parse_pagination md = inr ∅)
  ∧ parse_link_header (link "u1" "previous" +:+ ", " +:+ link "u3" "next")
    = inr (<["next" := "u3"]> (<["previous" := "u1"]> ∅)).
Proof.
  intros headers. unfold _parse_pagination, find_link_header, py_or.
  fold headers. split_and!.
  - intros -> Hv. simpl. destruct v; done.
  - intros -> -> Hv. simpl. destruct v; done.
  - by intros -> ->.
  - intros Hn. subst headers. rewrite Hn. simpl. by rewrite lookup_empty.
  - by vm_compute.
Qed.

End Spec.

  (** The example server and its pages. *)
Lemma P1_constructed :
  __init__ [1; 2] (with_link (link "u2" "next")) None = inr P1.
Proof. by vm_compute. Qed.

Lemma P2_constructed :
  __init__ (resp_elems resp2) (resp_metadata resp2) (resp_no_iter_next resp2)
  = inr P2.
Proof. by vm_compute. Qed.

Lemma P3_constructed :
  __init__ (resp_elems resp3) (resp_metadata resp3) (resp_no_iter_next resp3)
  = inr P3.
Proof. by vm_compute. Qed.

Lemma E1_constructed :
  __init__ [] (with_link (link "e2" "next")) None = inr E1.
Proof. by vm_compute. Qed.

Lemma chain_find3 : chain find3 (Some "u2") [P2; P3].
Proof.
  eapply chain_next with (resp := resp2);
    [done | done | exact P2_constructed |].
  eapply (chain_next find3 "u3" resp3);
    [done | done | exact P3_constructed |].
  by apply chain_end.
Qed.

Lemma page_iterator_yields_each_page_witness :
  pgen_run find3 4 (GStart (mkPaginatedIterator 0))
    (mkState [set_no_iter_next true P1] [])
  = ([0; 1; 2], Finished,
     mkState [set_no_iter_next true P1; set_no_iter_next true P2;
              set_no_iter_next true P3] ["u2"; "u3"]).
Proof.
  exact (proj2 (proj2 (proj2
    (page_iterator_yields_each_page find3 (mkState [P1] []) 0 P1 [P2; P3] 4
       eq_refl eq_refl chain_find3 (le_n 4))))).
Defined.

Lemma iteration_advances_only_when_enabled_witness :
  __iter__ find3 1 0 (mkState [P1] []) = ([1; 2], Finished, mkState [P1] [])
  ∧ ∃ st', __iter__ find3 3 0 (mkState [set_no_iter_next false P1] [])
           = ([1; 2; 3; 4; 5], Finished, st')
         ∧ fetched st' = ["u2"; "u3"].
Proof.
  split.
  - exact (proj1 (proj2 (iteration_advances_only_when_enabled find3
             (mkState [P1] []) 0 P1 eq_refl)) eq_refl 0).
  - exact (proj2 (proj2 (iteration_advances_only_when_enabled find3
             (mkState [set_no_iter_next false P1] []) 0
             (set_no_iter_next false P1) eq_refl))
             eq_refl eq_refl [P2; P3] 3 chain_find3 (le_n 3)).
Defined.

(** C5, as stated, fails: the page [P1] is constructed without the
    keyword, it has a next link and the server holds the page behind that
    link, and its iteration yields the two items of [P1] only and fetches
    nothing. *)
Lemma default_iteration_does_not_advance :
  __init__ [1; 2] (with_link (link "u2" "next")) None = inr P1
  ∧ has_next_page P1 = true
  ∧ find3 "u2" = inr resp2 ∧ resp_elems resp2 = [3; 4]
  ∧ ∀ fuel, __iter__ find3 (S fuel) 0 (mkState [P1] [])
            = ([1; 2], Finished, mkState [P1] []).
Proof.
  split_and!; [exact P1_constructed | done | done | done |].
  intros fuel. reflexivity.
Qed.

Lemma navigation_inherits_no_iter_next_witness :
  ∃ st', navigates find3 (mkState [set_no_iter_next false P1] []) 0 st' 2
         ∧ no_iter_next_of st' 2 = Some false.
Proof.
  assert (∃ st', navigates find3 (mkState [set_no_iter_next false P1] []) 0 st' 2)
    as [st' Hnav].
  { eexists.
    eapply (navigates_fetch find3 _ 0 false); [left; vm_compute; reflexivity | |].
    { vm_compute. discriminate. }
    eapply (navigates_fetch find3 _ 1 true); [left; vm_compute; reflexivity | |].
    { vm_compute. discriminate. }
    apply navigates_here. }
  exists st'. split; [exact Hnav |].
  exact (proj2 (navigation_inherits_no_iter_next find3 _ 0 st' 2 Hnav
                  (ex_intro _ _ eq_refl))).
Defined.

Lemma pagination_links_from_Link_or_link_witness :
  _parse_pagination (metadata_of {["Link" := link "u2" "next"]})
  = parse_link_header (link "u2" "next")
  ∧ _parse_pagination (metadata_of {["link" := link "u2" "next"]})
    = parse_link_header (link "u2" "next")
  ∧ _parse_pagination (metadata_of ∅) = inr ∅.
Proof.
  split_and!.
  - refine (proj1 (pagination_links_from_Link_or_link
             (metadata_of {["Link" := link "u2" "next"]}) (link "u2" "next")) _ _);
      [reflexivity | discriminate].
  - refine (proj1 (proj2 (pagination_links_from_Link_or_link
             (metadata_of {["link" := link "u2" "next"]}) (link "u2" "next"))) _ _ _);
      [reflexivity | reflexivity | discriminate].
  - refine (proj1 (proj2 (proj2 (pagination_links_from_Link_or_link
             (metadata_of ∅) ""))) _ _); reflexivity.
Defined.

(** C8, as stated, fails: under the key [LINK] the header is a value of
    a key that is [Link] in some casing, and the links are not derived
    from it. *)
Lemma upper_case_LINK_is_not_found :
  let headers : gmap string string := {["LINK" := link "u2" "next"]} in
  spec_link_header headers (link "u2" "next")
  ∧ parse_link_header (link "u2" "next") = inr {["next" := "u2"]}
  ∧ _parse_pagination (metadata_of headers) = inr ∅
  ∧ _parse_pagination (metadata_of headers) ≠ parse_link_header (link "u2" "next").
Proof.
  split_and!.
  - exists "LINK". split; reflexivity.
  - by vm_compute.
  - by vm_compute.
  - vm_compute. discriminate.
Qed.

(** C4. On the second of three pages, [previous_page()] fetches the first
    page and stores it in [_next], not in [_previous]: the slot
    [_previous] of the caller stays empty, a second [previous_page()]
    asks the server again, and [next_page()] returns the page that was
    fetched as the previous one. *)
Theorem previous_page_stores_in_next_slot :
  ∃ st1 st2,
    previous_page find3 0 false (mkState [P2] []) = (inr 1, st1)
    ∧ fetched st1 = ["u1"]
    ∧ (_previous <$> heap st1 !! 0) = Some None
    ∧ (_next <$> heap st1 !! 0) = Some (Some 1)
    ∧ (_previous <$> heap st1 !! 1) = Some (Some 0)
    ∧ (_next <$> heap st1 !! 1) = Some None
    ∧ previous_page find3 0 false st1 = (inr 2, st2)
    ∧ fetched st2 = ["u1"; "u1"]
    ∧ next_page find3 0 false st1 = (inr 1, st1).
Proof.
  eexists _, _. split; [vm_compute; reflexivity |].
  split_and!; try (vm_compute; reflexivity).
Qed.

(** C9. An empty page fetches its next page, which is empty too, and is
    installed as the cached previous page of that page.  The call
    [previous_page()] on the new page does not return it: the cached page
    is a list without items and so counts as false, and the call raises
    [IndexError] because the page has no previous link. *)
Theorem empty_cached_page_is_not_returned :
  ∃ st1,
    next_page find_empty 0 false (mkState [E1] []) = (inr 1, st1)
    ∧ (_previous <$> heap st1 !! 1) = Some (Some 0)
    ∧ (previous_page_url <$> heap st1 !! 1) = Some None
    ∧ previous_page find_empty 1 false st1
      = (inl (IndexError "No previous page"), st1).
Proof.
  eexists. split; [vm_compute; reflexivity |].
  split_and!; vm_compute; reflexivity.
Qed.

End CollectionSpec.

(** ** Access scopes: the covering relation and reconstruction *)

Module ApiAccessAlgebra.

Import PyStr PyStrFacts ApiAccess ApiAccessFacts ApiAccessSpec.

#[local] Arguments String.append !_ _ / : simpl nomatch.

  (** The scopes with an implied scope are the write scopes, and the
      implied scope is the read scope of the same prefix and resource. *)
Lemma implied_scope_Some (w s : string) :
  _get_implied_scope w = Some s ↔
    ∃ p r, p ∈ [""; "unauthenticated_"] ∧ contains newline r = false
           ∧ w = p +:+ "write_" +:+ r ∧ s = p +:+ "read_" +:+ r.
Proof.
  unfold _get_implied_scope, IMPLIED_SCOPE_RE_match, match_scope. split.
  - destruct (strip_prefix "unauthenticated_" w) as [rest|] eqn:E.
    + destruct (match_verb ["write"] rest) as [[v r]|] eqn:Ev.
      * apply match_verb_Some in Ev as (Hv & Hn & ->).
        apply list_elem_of_singleton in Hv as ->.
        apply strip_prefix_Some in E. intros [= <-].
        exists "unauthenticated_", r. split_and!; [set_solver | done..].
      * destruct (match_verb ["write"] w) as [[v r]|] eqn:Ev'; [|done].
        apply match_verb_Some in Ev' as (Hv & Hn & ->).
        apply list_elem_of_singleton in Hv as ->. intros [= <-].
        exists "", r. split_and!; [set_solver | done..].
    + destruct (match_verb ["write"] w) as [[v r]|] eqn:Ev'; [|done].
      apply match_verb_Some in Ev' as (Hv & Hn & ->).
      apply list_elem_of_singleton in Hv as ->. intros [= <-].
      exists "", r. split_and!; [set_solver | done..].
  - intros (p & r & Hp & Hn & -> & ->).
    assert (Hr : match_resource r = Some r) by (by apply match_resource_Some).
    apply list_elem_of_In in Hp. simpl in Hp.
    destruct Hp as [<-|[<-|[]]]; simpl; rewrite Hr; done.
Qed.

  (** An implied scope is not a write scope. *)
Lemma implied_scope_not_write (w s : string) :
  _get_implied_scope w = Some s → _get_implied_scope s = None.
Proof.
  intros (p & r & Hp & _ & _ & ->)%implied_scope_Some.
  apply list_elem_of_In in Hp. simpl in Hp.
  destruct Hp as [<-|[<-|[]]]; reflexivity.
Qed.

  (** An implied scope is a valid scope. *)
Lemma implied_scope_valid (w s : string) :
  _get_implied_scope w = Some s → scope_pattern s.
Proof.
  intros (p & r & Hp & Hn & _ & ->)%implied_scope_Some.
  exists p, "read", r. split_and!; [done | set_solver | done | done].
Qed.

  (** [covers] as a statement about members. *)
Lemma covers_true_iff (A B : t) :
  covers A B = true ↔
    ∀ s, s ∈ _compressed_scopes B → Some s ∈ _expanded_scopes A.
Proof.
  unfold covers. rewrite bool_decide_eq_true, elem_of_subseteq. split.
  - intros H s Hs. apply H, elem_of_map. eauto.
  - intros H o (s & -> & Hs)%elem_of_map. by apply H.
Qed.

Section Constructed.

Context (a : scopes_arg) (A : t) (HA : __init__ a = inr A).

Lemma compressed_iff (s : string) :
  s ∈ _compressed_scopes A ↔
    s ∈ sanitize (entries a)
    ∧ ∀ w, w ∈ sanitize (entries a) → _get_implied_scope w ≠ Some s.
Proof. by destruct (_store_scopes_inr _ _ HA) as (_ & Hc & _). Qed.

Lemma expanded_Some_iff (s : string) :
  Some s ∈ _expanded_scopes A ↔
    s ∈ sanitize (entries a)
    ∨ ∃ w, w ∈ sanitize (entries a) ∧ _get_implied_scope w = Some s.
Proof.
  destruct (_store_scopes_inr _ _ HA) as (_ & _ & He). rewrite He. naive_solver.
Qed.

  (** A write scope among the entries is a compressed scope. *)
Lemma write_scope_compressed (w s : string) :
  w ∈ sanitize (entries a) → _get_implied_scope w = Some s →
  w ∈ _compressed_scopes A.
Proof.
  intros Hw Hs. apply compressed_iff. split; [done |].
  intros w' _ Hw'. apply implied_scope_not_write in Hw'. congruence.
Qed.

  (** A write scope among the expanded scopes is one of the entries. *)
Lemma write_scope_expanded (w s : string) :
  Some w ∈ _expanded_scopes A → _get_implied_scope w = Some s →
  w ∈ sanitize (entries a).
Proof.
  intros [Hw|(w' & _ & Hw')]%expanded_Some_iff Hs; [done |].
  apply implied_scope_not_write in Hw'. congruence.
Qed.

End Constructed.

(** X1. Whether an access set covers another can be read off the entries
    they were built from: it does exactly when every sanitized entry of
    the other is a sanitized entry of the first or the read scope implied
    by one of them.  Compressing the other set loses nothing. *)
Theorem covers_iff_entries_held (a b : scopes_arg) (A B : t) :
  __init__ a = inr A →
  __init__ b = inr B →
  covers A B = true ↔
    ∀ s, s ∈ sanitize (entries b) →
         s ∈ sanitize (entries a)
         ∨ ∃ w, w ∈ sanitize (entries a) ∧ _get_implied_scope w = Some s.
Proof.
  intros HA HB. rewrite covers_true_iff. split.
  - intros H s Hs.
    destruct (decide (Exists (λ w, _get_implied_scope w = Some s)
                             (sanitize (entries b)))) as [Hi|Hn].
    + apply Exists_exists in Hi as (w & Hw & Hws).
      pose proof (write_scope_compressed b B HB w s Hw Hws) as Hc.
      apply H in Hc. right. exists w. split; [|done].
      by eapply write_scope_expanded.
    + apply (expanded_Some_iff a A HA), H, (compressed_iff b B HB).
      split; [done |]. intros w Hw Hws. apply Hn, Exists_exists. eauto.
  - intros H s [Hs _]%(compressed_iff b B HB).
    by apply (expanded_Some_iff a A HA), H.
Qed.

(** X2. Every validly constructed access set covers itself. *)
Theorem covers_reflexive (a : scopes_arg) (A : t) :
  __init__ a = inr A → covers A A = true.
Proof.
  intros HA. apply covers_true_iff. intros s [Hs _]%(compressed_iff a A HA).
  apply (expanded_Some_iff a A HA). by left.
Qed.

(** X3. Covering is transitive on validly constructed access sets. *)
Theorem covers_transitive (a b c : scopes_arg) (A B C : t) :
  __init__ a = inr A → __init__ b = inr B → __init__ c = inr C →
  covers A B = true → covers B C = true → covers A C = true.
Proof.
  intros HA HB HC HAB HBC.
  pose proof (proj1 (covers_true_iff A B) HAB) as HAB'.
  pose proof (proj1 (covers_true_iff B C) HBC) as HBC'.
  apply covers_true_iff. intros s Hs. apply HBC' in Hs.
  apply (expanded_Some_iff b B HB) in Hs as [Hs|(w & Hw & Hws)].
  - destruct (decide (Exists (λ w, _get_implied_scope w = Some s)
                             (sanitize (entries b)))) as [Hi|Hn].
    + apply Exists_exists in Hi as (w & Hw & Hws).
      pose proof (HAB' _ (write_scope_compressed b B HB w s Hw Hws)) as Hw'.
      apply (expanded_Some_iff a A HA). right. exists w. split; [|done].
      by eapply write_scope_expanded.
    + apply HAB', (compressed_iff b B HB). split; [done |].
      intros w Hw Hws. apply Hn, Exists_exists. eauto.
  - pose proof (HAB' _ (write_scope_compressed b B HB w s Hw Hws)) as Hw'.
    apply (expanded_Some_iff a A HA). right. exists w. split; [|done].
    by eapply write_scope_expanded.
Qed.

  (** One half of the next theorem. *)
Lemma mutual_covers_subset (a b : scopes_arg) (A B : t) :
  __init__ a = inr A → __init__ b = inr B →
  covers A B = true → covers B A = true →
  ∀ s, s ∈ _compressed_scopes A → s ∈ _compressed_scopes B.
Proof.
  intros HA HB HAB HBA s Hs.
  pose proof (proj1 (covers_true_iff A B) HAB) as HAB'.
  pose proof (proj1 (covers_true_iff B A) HBA) as HBA'.
  assert (Hnot : ∀ w, w ∈ sanitize (entries b) → _get_implied_scope w ≠ Some s).
  { intros w Hw Hws.
    pose proof (HAB' _ (write_scope_compressed b B HB w s Hw Hws)) as Hw'.
    apply (compressed_iff a A HA) in Hs as [_ Hs]. apply (Hs w); [|done].
    by eapply write_scope_expanded. }
  apply (compressed_iff b B HB). split; [|done].
  apply HBA', (expanded_Some_iff b B HB) in Hs as [Hs|(w & Hw & Hws)]; [done |].
  by destruct (Hnot w Hw).
Qed.

(** X4. Two validly constructed access sets are equal exactly when each
    covers the other. *)
Theorem eq_iff_mutual_covers (a b : scopes_arg) (A B : t) :
  __init__ a = inr A → __init__ b = inr B →
  __eq__ A B = true ↔ covers A B = true ∧ covers B A = true.
Proof.
  intros HA HB. unfold __eq__. rewrite bool_decide_eq_true. split.
  - intros Heq. split; apply covers_true_iff; intros s Hs.
    + rewrite <- Heq in Hs. apply (compressed_iff a A HA) in Hs as [Hs _].
      apply (expanded_Some_iff a A HA). by left.
    + rewrite Heq in Hs. apply (compressed_iff b B HB) in Hs as [Hs _].
      apply (expanded_Some_iff b B HB). by left.
  - intros [HAB HBA]. apply set_eq. intros s. split.
    + by apply (mutual_covers_subset a b A B).
    + by apply (mutual_covers_subset b a B A).
Qed.

(** X5. Every string among the expanded scopes of a validly constructed
    access set is a scope of the accepted form. *)
Theorem expanded_scopes_valid (a : scopes_arg) (A : t) (s : string) :
  __init__ a = inr A → Some s ∈ _expanded_scopes A → scope_pattern s.
Proof.
  intros HA [Hs|(w & _ & Hw)]%(expanded_Some_iff a A HA).
  - apply SCOPE_RE_match_pattern.
    by destruct (_store_scopes_inr _ _ HA) as (Hv & _ & _); apply Hv.
  - by eapply implied_scope_valid.
Qed.

(** X6. An access set built from the scopes that iterating a validly
    constructed access set yields, in any order, is equal to it, and the
    two have the same strings among their expanded scopes. *)
Theorem reconstruct_from_iteration (a : scopes_arg) (A : t) (order : list string) :
  __init__ a = inr A →
  order ≡ₚ __iter__ A →
  ∃ A', __init__ (ScopesList order) = inr A'
        ∧ __eq__ A' A = true
        ∧ ∀ s, Some s ∈ _expanded_scopes A' ↔ Some s ∈ _expanded_scopes A.
Proof.
  unfold __iter__. intros HA Hperm.
  assert (Hmem : ∀ s, s ∈ order ↔ s ∈ _compressed_scopes A).
  { intros s. by rewrite Hperm, elem_of_elements. }
  pose proof (_store_scopes_inr _ _ HA) as (Hvalid & _ & _).
  assert (Hsan : sanitize (entries (ScopesList order)) = order).
  { apply sanitize_fix, Forall_forall. intros s Hs.
    apply Hmem, (compressed_iff a A HA) in Hs as [Hs _].
    split; [by eapply sanitize_strip |].
    by apply elem_of_sanitize in Hs as [? _]. }
  destruct (_store_scopes_succeeds (entries (ScopesList order))) as [A' HA'].
  { rewrite Hsan. intros s Hs. apply Hvalid.
    by apply Hmem, (compressed_iff a A HA) in Hs as [? _]. }
  exists A'. split; [exact HA' |]. split.
  - unfold __eq__. apply bool_decide_eq_true, set_eq. intros s.
    rewrite (compressed_iff _ A' HA'), Hsan, Hmem. split; [by intros [? _] |].
    intros Hs. split; [done |]. intros w Hw.
    apply Hmem, (compressed_iff a A HA) in Hw as [Hw _].
    apply (compressed_iff a A HA) in Hs as [_ Hs]. by apply Hs.
  - intros s. rewrite (expanded_Some_iff _ A' HA'), Hsan, (expanded_Some_iff a A HA).
    setoid_rewrite Hmem. split.
    + intros [Hs|(w & Hw & Hws)].
      * left. by apply (compressed_iff a A HA) in Hs as [? _].
      * right. exists w. split; [|done].
        by apply (compressed_iff a A HA) in Hw as [? _].
    + intros [Hs|(w & Hw & Hws)].
      * destruct (decide (Exists (λ w, _get_implied_scope w = Some s)
                                 (sanitize (entries a)))) as [Hi|Hn].
        -- apply Exists_exists in Hi as (w & Hw & Hws). right. exists w.
           split; [by eapply write_scope_compressed | done].
        -- left. apply (compressed_iff a A HA). split; [done |].
           intros w Hw Hws. apply Hn, Exists_exists. eauto.
      * right. exists w. split; [by eapply write_scope_compressed | done].
Qed.

(** X7. Two collections that hold the same entries up to surrounding
    white space, order and repetition give the same access set. *)
Theorem construction_ignores_order_and_repetition (l l' : list string) (A : t) :
  (∀ s, s ∈ strip <$> l ↔ s ∈ strip <$> l') →
  __init__ (ScopesList l) = inr A →
  __init__ (ScopesList l') = inr A.
Proof.
  intros Hsame. unfold __init__, _store_scopes. simpl.
  assert (list_to_set (sanitize l) =@{gset string} list_to_set (sanitize l')) as ->;
    [|done].
  apply set_eq. intros s. rewrite !elem_of_list_to_set. unfold sanitize.
  by rewrite !list_elem_of_filter, Hsame.
Qed.

(** X8. A comma-joined string of entries none of which holds a comma is
    parsed to the same result, access set or error, as the collection of
    those entries. *)
Theorem delimited_string_agrees_with_collection (l : list string) :
  Forall (λ s, contains ","%char s = false) l →
  __init__ (ScopesStr (join SCOPE_DELIMITER l)) = __init__ (ScopesList l).
Proof.
  intros Hl. unfold __init__, entries, SCOPE_DELIMITER.
  destruct l as [|x l'] eqn:El; [reflexivity |]. rewrite <- El in *.
  change "," with (String ","%char ""). rewrite split_join; [done | by rewrite El | done].
Qed.

Lemma covers_iff_entries_held_witness :
  ∃ A B, __init__ (ScopesStr "write_orders, read_products") = inr A
         ∧ __init__ (ScopesStr "read_orders,read_products") = inr B
         ∧ covers A B = true.
Proof.
  destruct (__init__ (ScopesStr "write_orders, read_products")) as [e|A] eqn:HA;
    [by vm_compute in HA |].
  destruct (__init__ (ScopesStr "read_orders,read_products")) as [e|B] eqn:HB;
    [by vm_compute in HB |].
  exists A, B. split; [reflexivity |]. split; [reflexivity |].
  apply (covers_iff_entries_held _ _ A B HA HB).
  intros s Hs. clear HA HB. vm_compute in Hs.
  apply list_elem_of_In in Hs. simpl in Hs.
  destruct Hs as [<-|[<-|[]]].
  - right. exists "write_orders". split; [|reflexivity]. vm_compute. left.
  - left. vm_compute. right. left.
Defined.

Lemma covers_reflexive_witness :
  ∃ A, __init__ (ScopesStr "write_orders,read_orders") = inr A ∧ covers A A = true.
Proof.
  destruct (__init__ (ScopesStr "write_orders,read_orders")) as [e|A] eqn:HA;
    [by vm_compute in HA |].
  exists A. split; [reflexivity |]. exact (covers_reflexive _ A HA).
Defined.

  (** The three access sets of the witnesses below. *)
Lemma three_sets :
  ∃ A B C, __init__ (ScopesStr "write_orders,write_products") = inr A
           ∧ __init__ (ScopesStr "write_orders") = inr B
           ∧ __init__ (ScopesStr "read_orders") = inr C
           ∧ covers A B = true ∧ covers B C = true.
Proof.
  destruct (__init__ (ScopesStr "write_orders,write_products")) as [e|A] eqn:HA;
    [by vm_compute in HA |].
  destruct (__init__ (ScopesStr "write_orders")) as [e|B] eqn:HB;
    [by vm_compute in HB |].
  destruct (__init__ (ScopesStr "read_orders")) as [e|C] eqn:HC;
    [by vm_compute in HC |].
  assert (match __init__ (ScopesStr "write_orders,write_products"),
                __init__ (ScopesStr "write_orders"),
                __init__ (ScopesStr "read_orders") with
          | inr A, inr B, inr C => covers A B = true ∧ covers B C = true
          | _, _, _ => True
          end) as H by (clear; vm_compute; split; reflexivity).
  rewrite HA, HB, HC in H. exists A, B, C.
  split; [reflexivity |]. split; [reflexivity |]. split; [reflexivity |]. exact H.
Defined.

Lemma covers_transitive_witness :
  ∃ A C, __init__ (ScopesStr "write_orders,write_products") = inr A
         ∧ __init__ (ScopesStr "read_orders") = inr C
         ∧ covers A C = true.
Proof.
  destruct three_sets as (A & B & C & HA & HB & HC & HAB & HBC).
  exists A, C. split; [exact HA |]. split; [exact HC |].
  exact (covers_transitive _ _ _ A B C HA HB HC HAB HBC).
Defined.

Lemma eq_iff_mutual_covers_witness :
  ∃ A B, __init__ (ScopesStr "write_orders,read_orders") = inr A
         ∧ __init__ (ScopesList ["write_orders"]) = inr B
         ∧ covers A B = true ∧ covers B A = true.
Proof.
  destruct (__init__ (ScopesStr "write_orders,read_orders")) as [e|A] eqn:HA;
    [by vm_compute in HA |].
  destruct (__init__ (ScopesList ["write_orders"])) as [e|B] eqn:HB;
    [by vm_compute in HB |].
  assert (match __init__ (ScopesStr "write_orders,read_orders"),
                __init__ (ScopesList ["write_orders"]) with
          | inr A, inr B => __eq__ A B = true
          | _, _ => True
          end) as H by (clear; vm_compute; reflexivity).
  rewrite HA, HB in H. exists A, B.
  split; [reflexivity |]. split; [reflexivity |].
  exact (proj1 (eq_iff_mutual_covers _ _ A B HA HB) H).
Defined.

Lemma expanded_scopes_valid_witness :
  ∃ A, __init__ (ScopesStr "unauthenticated_write_products") = inr A
       ∧ scope_pattern "unauthenticated_read_products".
Proof.
  destruct (__init__ (ScopesStr "unauthenticated_write_products")) as [e|A] eqn:HA;
    [by vm_compute in HA |].
  exists A. split; [reflexivity |].
  apply (expanded_scopes_valid _ A _ HA).
  assert (match __init__ (ScopesStr "unauthenticated_write_products") with
          | inr A => bool_decide (Some "unauthenticated_read_products"
                                    ∈ _expanded_scopes A) = true
          | inl _ => True
          end) as H by (clear; vm_compute; reflexivity).
  rewrite HA in H. by apply bool_decide_eq_true in H.
Defined.

Lemma reconstruct_from_iteration_witness :
  ∃ A A', __init__ (ScopesStr "write_orders,read_orders,read_products") = inr A
          ∧ __init__ (ScopesList (__iter__ A)) = inr A'
          ∧ __eq__ A' A = true.
Proof.
  destruct (__init__ (ScopesStr "write_orders,read_orders,read_products"))
    as [e|A] eqn:HA; [by vm_compute in HA |].
  destruct (reconstruct_from_iteration _ A (__iter__ A) HA (reflexivity _))
    as (A' & HA' & Heq & _).
  exists A, A'. split; [reflexivity |]. split; [exact HA' | exact Heq].
Defined.

Lemma construction_ignores_order_and_repetition_witness :
  ∃ A, __init__ (ScopesList ["read_orders"; "write_products"]) = inr A
       ∧ __init__ (ScopesList [" write_products"; "read_orders "; "read_orders"])
         = inr A.
Proof.
  destruct (__init__ (ScopesList ["read_orders"; "write_products"]))
    as [e|A] eqn:HA; [by vm_compute in HA |].
  exists A. split; [reflexivity |].
  apply (construction_ignores_order_and_repetition
           ["read_orders"; "write_products"]
           [" write_products"; "read_orders "; "read_orders"] A); [|exact HA].
  clear. intros s.
  change (strip <$> ["read_orders"; "write_products"])
    with ["read_orders"; "write_products"].
  replace (strip <$> [" write_products"; "read_orders "; "read_orders"])
    with ["write_products"; "read_orders"; "read_orders"]
    by (vm_compute; reflexivity).
  rewrite !list_elem_of_In. simpl. tauto.
Defined.

Lemma delimited_string_agrees_with_collection_witness :
  __init__ (ScopesStr "read_orders,write_products")
  = __init__ (ScopesList ["read_orders"; "write_products"]).
Proof.
  apply (delimited_string_agrees_with_collection ["read_orders"; "write_products"]).
  repeat constructor.
Defined.

Lemma expanded_scopes_strings_witness :
  ∃ A, __init__ (ScopesStr "write_orders") = inr A
       ∧ Some "read_orders" ∈ _expanded_scopes A.
Proof.
  destruct (__init__ (ScopesStr "write_orders")) as [e|A] eqn:HA;
    [by vm_compute in HA |].
  exists A. split; [reflexivity |].
  apply (proj2 (expanded_scopes_strings (ScopesStr "write_orders") A
                  "read_orders" HA)).
  right. exists "write_orders". split; [|reflexivity]. clear. vm_compute. left.
Defined.

Lemma write_scope_implies_read_witness :
  ∃ A, __init__ (ScopesStr "unauthenticated_write_products") = inr A
       ∧ Some "unauthenticated_read_products" ∈ _expanded_scopes A
       ∧ "unauthenticated_read_products" ∉ _compressed_scopes A.
Proof.
  destruct (__init__ (ScopesStr "unauthenticated_write_products")) as [e|A] eqn:HA;
    [by vm_compute in HA |].
  exists A. split; [reflexivity |].
  apply (write_scope_implies_read (ScopesStr "unauthenticated_write_products") A
           "unauthenticated_" "products" HA).
  - clear. apply list_elem_of_further, list_elem_of_here.
  - clear. vm_compute. left.
Defined.

End ApiAccessAlgebra.

(** ** Link headers *)

Module LinkHeaderFacts.

Import PyStr PyStrFacts Collection Scenario.

#[local] Arguments String.append !_ _ / : simpl nomatch.



















End LinkHeaderFacts.

(** ** Navigation: errors, the cache and the store *)

Module NavigationSpec.

Import PyStr Collection Scenario CollectionFacts CollectionChains CollectionSpec.

Section Navigation.

Context {item : Type} (find : string → exn + response item).

Implicit Types (st : state item) (p np : page item) (self q r : ref).

Lemma _fetch_page_fails st self u (no_cache : bool) (e : exn) :
  fetch_fails find u e →
  _fetch_page find self u no_cache st
  = (inl e, mkState (heap st) (fetched st ++ [u])).
Proof.
  unfold _fetch_page, bind, resource_class_find.
  intros [->|(resp & -> & ->)]; done.
Qed.

Lemma next_page_fetch_fails st self p (u : string) (e : exn) (no_cache : bool) :
  heap st !! self = Some p → truthy u = true → fetch_fails find u e →
  page_truthy (heap st) (_next p) = false → next_page_url p = Some u →
  next_page find self no_cache st
  = (inl e, mkState (heap st) (fetched st ++ [u])).
Proof.
  intros Hp Hu He Hc Hl.
  rewrite (next_page_unfold find _ _ _ _ Hp), Hc. unfold has_next_page.
  rewrite Hl. simpl. rewrite Hu. simpl. by apply _fetch_page_fails.
Qed.

Lemma previous_page_fetch_fails st self p (u : string) (e : exn) (no_cache : bool) :
  heap st !! self = Some p → truthy u = true → fetch_fails find u e →
  page_truthy (heap st) (_previous p) = false → previous_page_url p = Some u →
  previous_page find self no_cache st
  = (inl e, mkState (heap st) (fetched st ++ [u])).
Proof.
  intros Hp Hu He Hc Hl.
  rewrite (previous_page_unfold find _ _ _ _ Hp), Hc. unfold has_previous_page.
  rewrite Hl. simpl. rewrite Hu. simpl. by apply _fetch_page_fails.
Qed.

(** X13. When no page is cached and the link is there, an exception of
    the collaborator, or of the constructor of the page it answers with,
    leaves [next_page] and [previous_page] as it is; no page is added or
    changed, and the request is on record. *)
Theorem fetch_error_propagates st self p (u : string) (e : exn) (no_cache : bool) :
  heap st !! self = Some p →
  truthy u = true →
  fetch_fails find u e →
  (page_truthy (heap st) (_next p) = false → next_page_url p = Some u →
   next_page find self no_cache st
   = (inl e, mkState (heap st) (fetched st ++ [u])))
  ∧ (page_truthy (heap st) (_previous p) = false → previous_page_url p = Some u →
     previous_page find self no_cache st
     = (inl e, mkState (heap st) (fetched st ++ [u]))).
Proof.
  intros Hp Hu He. split; intros Hc Hl.
  - by apply (next_page_fetch_fails st self p u).
  - by apply (previous_page_fetch_fails st self p u).
Qed.

(** X14. When the fetch of the next page fails, the page iterator ends
    without an error if the exception is an [IndexError], whatever raised
    it, and raises the exception otherwise; the flattening iteration in
    auto-advance mode yields the items of the page and ends in the same
    two ways. *)
Theorem iterators_on_fetch_error st (cur : ref) p (u : string) (e : exn)
    (fuel : nat) :
  heap st !! cur = Some p →
  _next p = None →
  next_page_url p = Some u →
  truthy u = true →
  fetch_fails find u e →
  pgen_next find (GYielded cur) st
  = (if is_IndexError e then inr None else inl e, GDone,
     mkState (heap st) (fetched st ++ [u]))
  ∧ (_no_iter_next p = false →
     ∃ st', __iter__ find (S fuel) cur st
            = (items p, if is_IndexError e then Finished else Raised e, st')
          ∧ fetched st' = fetched st ++ [u]
          ∧ length (heap st') = length (heap st)).
Proof.
  intros Hp Hn Hl Hu He. split.
  - unfold pgen_next.
    rewrite (next_page_fetch_fails st cur p u e true Hp Hu He)
      by (by rewrite ?Hn).
    by destruct e.
  - intros Hf. cbn [__iter__]. unfold get_page at 1. rewrite Hp, Hf.
    destruct (page_truthy (heap st) (_current_iter p)); simpl; unfold bind.
    + simpl.
      rewrite (next_page_fetch_fails st cur p u e false Hp Hu He)
        by (by rewrite ?Hn).
      destruct e; eexists; (split; [reflexivity | done]).
    + unfold modify. rewrite Hp.
      assert (Hlt : cur < length (heap st)) by (by eapply lookup_lt_Some).
      rewrite (next_page_fetch_fails
                 (mkState (<[cur := set_current_iter (Some cur) p]> (heap st))
                          (fetched st))
                 cur (set_current_iter (Some cur) p) u e false
                 (list_lookup_insert_eq _ _ _ Hlt) Hu He)
        by (by simpl; rewrite ?Hn).
      destruct e; eexists; (split; [reflexivity | simpl; by rewrite length_insert]).
Qed.

(** X15. A call of [next_page] or [previous_page] with [no_cache=True]
    changes no page of the store: whatever it returns or raises, the
    pages there were are as they were, and at most one page is added. *)
Theorem navigation_without_cache_keeps_pages st self (res : exn + ref) st' :
  next_page find self true st = (res, st')
  ∨ previous_page find self true st = (res, st') →
  ∃ new, heap st' = heap st ++ new ∧ length new ≤ 1.
Proof.
  intros H. destruct (heap st !! self) as [p|] eqn:Hp.
  2: { destruct (navigation_dangling find st self true Hp) as [H1 H2].
       rewrite H1, H2 in H. exists []. rewrite app_nil_r.
       destruct H as [[= _ <-]|[= _ <-]]; (split; [done | simpl; lia]). }
  assert (st' = st ∨ ∃ url, _fetch_page find self url true st = (res, st'))
    as [->|[url Hu]].
  { destruct H as [H|H].
    - rewrite (next_page_unfold find _ _ _ _ Hp) in H.
      destruct (page_truthy (heap st) (_next p)).
      { left. by destruct (_next p); injection H as <- <-. }
      destruct (has_next_page p); simpl in H; [eauto |].
      left. by injection H as <- <-.
    - rewrite (previous_page_unfold find _ _ _ _ Hp) in H.
      destruct (page_truthy (heap st) (_previous p)).
      { left. by destruct (_previous p); injection H as <- <-. }
      destruct (has_previous_page p); simpl in H; [eauto |].
      left. by injection H as <- <-. }
  - exists []. rewrite app_nil_r. split; [done | simpl; lia].
  - apply (_fetch_page_inv find _ _ _ _ _ _ _ Hp) in Hu as [_ Hu].
    destruct res as [e|q].
    + exists []. rewrite app_nil_r. split; [done | simpl; lia].
    + destruct Hu as (resp & np & _ & _ & _ & ->). unfold fetched_heap.
      rewrite list_insert_id by done. eexists [_]. split; [done | simpl; lia].
Qed.

(** X16. Two calls of [next_page(no_cache=True)] in a row on a page without
    a cached next page fetch the same URL twice and return two new pages;
    the page they are called on is not changed. *)
Theorem next_page_no_cache_twice st self p (u : string) (resp : response item) np :
  heap st !! self = Some p →
  _next p = None →
  next_page_url p = Some u → truthy u = true →
  find u = inr resp →
  __init__ (resp_elems resp) (resp_metadata resp) (resp_no_iter_next resp) = inr np →
  let np' := set_no_iter_next (_no_iter_next p) np in
  let st1 := mkState (heap st ++ [np']) (fetched st ++ [u]) in
  let st2 := mkState (heap st ++ [np'; np']) (fetched st ++ [u; u]) in
  next_page find self true st = (inr (length (heap st)), st1)
  ∧ next_page find self true st1 = (inr (S (length (heap st))), st2)
  ∧ heap st2 !! self = Some p.
Proof.
  intros Hp Hn Hl Hu Hf Hi np' st1 st2.
  assert (Hlt : self < length (heap st)) by (by eapply lookup_lt_Some).
  assert (Hp1 : heap st1 !! self = Some p).
  { subst st1. simpl. by rewrite lookup_app_l. }
  split_and!.
  - rewrite (next_page_unfold find _ _ _ _ Hp), Hn. simpl.
    unfold has_next_page. rewrite Hl. simpl. rewrite Hu. simpl.
    erewrite _fetch_page_ok by done. unfold fetched_heap.
    by rewrite list_insert_id.
  - rewrite (next_page_unfold find _ _ _ _ Hp1), Hn. simpl.
    unfold has_next_page. rewrite Hl. simpl. rewrite Hu. simpl.
    erewrite _fetch_page_ok by done. unfold fetched_heap.
    rewrite list_insert_id by done. subst st1 st2. simpl.
    rewrite length_app. simpl. rewrite <- !app_assoc. simpl.
    by replace (length (heap st) + 1) with (S (length (heap st))) by lia.
  - subst st2. simpl. by rewrite lookup_app_l.
Qed.

(** X17. After [next_page()] fetched and cached a page, [previous_page()]
    on that page returns the page the call was made on, without a fetch
    and whether or not the new page has a previous link, provided the
    first page holds items. *)
Theorem next_then_previous_returns st self p (u : string) (resp : response item)
    np (no_cache : bool) :
  heap st !! self = Some p →
  _next p = None →
  next_page_url p = Some u → truthy u = true →
  find u = inr resp →
  __init__ (resp_elems resp) (resp_metadata resp) (resp_no_iter_next resp) = inr np →
  items p ≠ [] →
  ∃ q st1, next_page find self false st = (inr q, st1)
           ∧ previous_page find q no_cache st1 = (inr self, st1).
Proof.
  intros Hp Hn Hl Hu Hf Hi Hne.
  exists (length (heap st)),
         (mkState (fetched_heap st self p np false) (fetched st ++ [u])).
  split.
  - rewrite (next_page_unfold find _ _ _ _ Hp), Hn. simpl.
    unfold has_next_page. rewrite Hl. simpl. rewrite Hu. simpl.
    by erewrite _fetch_page_ok.
  - eapply previous_page_cached.
    + exact (lookup_fetched_heap_new st self p np false Hp).
    + done.
    + eapply page_truthy_items;
        [exact (lookup_fetched_heap_self st self p np false Hp) | done].
Qed.

  (** The length of a page without a cached next page. *)
Lemma __len___no_next (fuel : nat) (h : list (page item)) r p :
  0 < fuel → h !! r = Some p → _next p = None →
  __len__ fuel h r = length (items p).
Proof.
  intros Hfuel Hp Hn. destruct fuel; [lia |]. simpl. by rewrite Hp, Hn.
Qed.

(** X18. After [next_page()] fetched and cached a page, [len] of the page
    the call was made on is the number of its items plus the number of
    items of the new page; after [next_page(no_cache=True)] it is the
    number of its items as before.  Nothing is fetched to compute it. *)
Theorem len_counts_cached_next_page st self p (u : string) (resp : response item)
    np (no_cache : bool) :
  heap st !! self = Some p →
  _next p = None →
  next_page_url p = Some u → truthy u = true →
  find u = inr resp →
  __init__ (resp_elems resp) (resp_metadata resp) (resp_no_iter_next resp) = inr np →
  ∃ q st1, next_page find self no_cache st = (inr q, st1)
           ∧ page_len self st = (inr (length (items p)), st)
           ∧ page_len self st1
             = (inr ((if no_cache then 0 else length (items np))
                     + length (items p)), st1).
Proof.
  intros Hp Hn Hl Hu Hf Hi.
  assert (Hlt : self < length (heap st)) by (by eapply lookup_lt_Some).
  pose proof (__init___fields _ _ _ _ Hi) as (_ & Hnn & _).
  exists (length (heap st)),
         (mkState (fetched_heap st self p np no_cache) (fetched st ++ [u])).
  split_and!.
  - rewrite (next_page_unfold find _ _ _ _ Hp), Hn. simpl.
    unfold has_next_page. rewrite Hl. simpl. rewrite Hu. simpl.
    by erewrite _fetch_page_ok.
  - unfold page_len. by rewrite (__len___no_next _ _ _ p) by (done || lia).
  - unfold page_len. cbn [heap].
    assert (Hlen : length (fetched_heap st self p np no_cache)
                   = S (length (heap st))).
    { unfold fetched_heap. rewrite length_app, length_insert. simpl. lia. }
    rewrite Hlen. cbn [__len__].
    rewrite (lookup_fetched_heap_self st self p np no_cache Hp).
    destruct no_cache; simpl; [by rewrite Hn |].
    rewrite (__len___no_next _ _ _
               (set_no_iter_next (_no_iter_next p) (set_previous (Some self) np)));
      [| lia | exact (lookup_fetched_heap_new st self p np false Hp) | done].
    simpl. by destruct (length (items np)).
Qed.

(** X19. [PaginatedIterator] refuses an argument that is not a page with
    [TypeError] and changes nothing; given a page, it sets the flag of the
    page, so that the flattening iteration of that page afterwards yields
    the items of the page only and fetches nothing, whatever the flag was
    before. *)
Theorem page_iterator_turns_auto_advance_off st (r : ref) p (fuel : nat) :
  heap st !! r = Some p →
  PaginatedIterator__init__ NotAPage st
  = (inl (TypeError "PaginatedIterator expects a PaginatedCollection instance"), st)
  ∧ ∃ st0, PaginatedIterator__init__ (APage r) st = (inr (mkPaginatedIterator r), st0)
           ∧ __iter__ find (S fuel) r st0 = (items p, Finished, st0).
Proof.
  intros Hp. split; [done |].
  assert (Hlt : r < length (heap st)) by (by eapply lookup_lt_Some).
  eexists. split.
  - unfold PaginatedIterator__init__, bind, modify. rewrite Hp. reflexivity.
  - cbn [__iter__]. unfold get_page. cbn [heap].
    rewrite list_lookup_insert_eq by done. reflexivity.
Qed.

End Navigation.

Lemma fetch_error_propagates_witness :
  next_page find3 0 false (mkState [P404] [])
  = (inl (FetchError "404"), mkState [P404] ["zz"])
  ∧ previous_page find3 0 true (mkState [P404] [])
    = (inl (FetchError "404"), mkState [P404] ["zz"]).
Proof.
  split.
  - exact (proj1 (fetch_error_propagates find3 (mkState [P404] []) 0 P404 "zz"
                    (FetchError "404") false eq_refl eq_refl (or_introl eq_refl))
                 eq_refl eq_refl).
  - exact (proj2 (fetch_error_propagates find3 (mkState [P404] []) 0 P404 "zz"
                    (FetchError "404") true eq_refl eq_refl (or_introl eq_refl))
                 eq_refl eq_refl).
Defined.

  (** The answer of [find_unquoted] makes the constructor raise. *)
Lemma find_unquoted_fails :
  fetch_fails find_unquoted "zz" (IndexError "list index out of range").
Proof. right. eexists. split; [reflexivity |]. by vm_compute. Qed.

Lemma iterators_on_fetch_error_witness :
  pgen_next find_unquoted (GYielded 0) (mkState [P404] [])
  = (inr None, GDone, mkState [P404] ["zz"])
  ∧ pgen_next find3 (GYielded 0) (mkState [P404] [])
    = (inl (FetchError "404"), GDone, mkState [P404] ["zz"]).
Proof.
  split.
  - exact (proj1 (iterators_on_fetch_error find_unquoted (mkState [P404] []) 0
                    P404 "zz" (IndexError "list index out of range") 0
                    eq_refl eq_refl eq_refl eq_refl find_unquoted_fails)).
  - exact (proj1 (iterators_on_fetch_error find3 (mkState [P404] []) 0
                    P404 "zz" (FetchError "404") 0
                    eq_refl eq_refl eq_refl eq_refl (or_introl eq_refl))).
Defined.

Lemma navigation_without_cache_keeps_pages_witness :
  ∃ new, heap (next_page find3 0 true (mkState [P1] [])).2 = [P1] ++ new
         ∧ length new ≤ 1.
Proof.
  apply (navigation_without_cache_keeps_pages find3 (mkState [P1] []) 0
           (next_page find3 0 true (mkState [P1] [])).1
           (next_page find3 0 true (mkState [P1] [])).2).
  left. by destruct (next_page find3 0 true (mkState [P1] [])).
Defined.

Lemma next_page_no_cache_twice_witness :
  next_page find3 0 true (mkState [P1] []) = (inr 1, mkState [P1; P2] ["u2"])
  ∧ next_page find3 0 true (mkState [P1; P2] ["u2"])
    = (inr 2, mkState [P1; P2; P2] ["u2"; "u2"]).
Proof.
  destruct (next_page_no_cache_twice find3 (mkState [P1] []) 0 P1 "u2" resp2 P2
              eq_refl eq_refl eq_refl eq_refl eq_refl P2_constructed)
    as (H1 & H2 & _).
  split; [exact H1 | exact H2].
Defined.

Lemma next_then_previous_returns_witness :
  ∃ q st1, next_page find3 0 false (mkState [P1] []) = (inr q, st1)
           ∧ previous_page find3 q true st1 = (inr 0, st1).
Proof.
  apply (next_then_previous_returns find3 (mkState [P1] []) 0 P1 "u2" resp2 P2 true
           eq_refl eq_refl eq_refl eq_refl eq_refl P2_constructed).
  discriminate.
Defined.

Lemma len_counts_cached_next_page_witness :
  ∃ q st1, next_page find3 0 false (mkState [P1] []) = (inr q, st1)
           ∧ page_len 0 (mkState [P1] []) = (inr 2, mkState [P1] [])
           ∧ page_len 0 st1 = (inr 4, st1).
Proof.
  exact (len_counts_cached_next_page find3 (mkState [P1] []) 0 P1 "u2" resp2 P2
           false eq_refl eq_refl eq_refl eq_refl eq_refl P2_constructed).
Defined.

Lemma page_iterator_turns_auto_advance_off_witness :
  ∃ st0, PaginatedIterator__init__ (APage 0)
           (mkState [set_no_iter_next false P1] [])
         = (inr (mkPaginatedIterator 0), st0)
       ∧ __iter__ find3 1 0 st0 = ([1; 2], Finished, st0).
Proof.
  exact (proj2 (page_iterator_turns_auto_advance_off find3
                  (mkState [set_no_iter_next false P1] []) 0
                  (set_no_iter_next false P1) 0 eq_refl)).
Defined.


Lemma next_forward_navigation_witness :
  next_forward (heap (next_page find3 0 false (mkState [P1] [])).2).
Proof.
  apply (next_forward_navigation find3 (mkState [P1] []) 0 false
           (next_page find3 0 false (mkState [P1] [])).1
           (next_page find3 0 false (mkState [P1] [])).2).
  - intros r p n Hr Hn. destruct r as [|r]; [|by destruct r].
    by injection Hr as <-.
  - left. by destruct (next_page find3 0 false (mkState [P1] [])).
Defined.

Lemma __len___fuel_enough_witness :
  __len__ 2 [set_next (Some 1) P1; P2] 0 = __len__ 7 [set_next (Some 1) P1; P2] 0.
Proof.
  apply (__len___fuel_enough [set_next (Some 1) P1; P2]); [|simpl; lia..].
  intros r p n Hr Hn. destruct r as [|r].
  - injection Hr as <-. injection Hn as <-. lia.
  - destruct r as [|r]; [|done]. by injection Hr as <-.
Defined.

End NavigationSpec.

(** ** Pages that an iteration has walked *)

Module WalkedFacts.

Import PyStr Collection Scenario CollectionFacts CollectionChains.

Section Walked.

Context {item : Type} (find : string → exn + response item).

Implicit Types (st : state item) (p np : page item) (self q r : ref).
Implicit Types (h : list (page item)) (qs ps : list (page item)).

Lemma walked_bound h r qs : walked h r qs → r + length qs ≤ length h.
Proof.
  induction 1 as [r p Hp _ _ _|r p q pq qs Hp _ Hlt _ _ _ IH].
  - apply lookup_lt_Some in Hp. simpl. lia.
  - simpl in *. lia.
Qed.

Lemma walked_head h r qs : walked h r qs → ∃ p qs', qs = p :: qs' ∧ h !! r = Some p.
Proof. destruct 1; eauto. Qed.

  (** A store that agrees from [r] on has the same walked pages. *)
Lemma walked_frame h h' r qs :
  walked h r qs → (∀ i, r ≤ i → h' !! i = h !! i) → walked h' r qs.
Proof.
  induction 1 as [r p Hp Hn Hf Hl|r p q pq qs Hp Hn Hlt Hf Hi _ IH]; intros Hsame.
  - apply walked_last; [by rewrite Hsame | done..].
  - apply walked_next with q; [by rewrite Hsame | done..|].
    apply IH. intros i Hi'. apply Hsame. lia.
Qed.

Lemma __len___walked h r qs :
  walked h r qs →
  ∀ fuel, length qs ≤ fuel → __len__ fuel h r = length (concat (items <$> qs)).
Proof.
  induction 1 as [r p Hp Hn _ _|r p q pq qs Hp Hn _ _ _ _ IH]; intros fuel Hfuel.
  - destruct fuel; [simpl in Hfuel; lia |]. simpl. rewrite Hp, Hn. simpl.
    rewrite app_nil_r. done.
  - destruct fuel; [simpl in Hfuel; lia |]. cbn [__len__]. rewrite Hp, Hn.
    rewrite (IH fuel) by (simpl in *; lia).
    change (concat (items <$> p :: pq :: qs))
      with (items p ++ concat (items <$> pq :: qs)).
    rewrite length_app.
    destruct (length (concat (items <$> pq :: qs)) =? 0) eqn:E.
    + apply Nat.eqb_eq in E. lia.
    + lia.
Qed.

  (** The cached page behind a walked page is true. *)
Lemma walked_truthy h q pq qs :
  walked h q (pq :: qs) → items pq ≠ [] → page_truthy h (Some q) = true.
Proof.
  intros Hw Hi. unfold page_truthy.
  rewrite (__len___walked h q _ Hw) by (apply walked_bound in Hw; lia).
  simpl. rewrite length_app. destruct (items pq); [done |]. simpl.
  done.
Qed.

  (** Iterating a walked page again yields the items of all its pages
      and fetches nothing. *)
Lemma __iter___walked qs : ∀ st r (fuel : nat),
  walked (heap st) r qs →
  length qs ≤ fuel →
  ∃ st', __iter__ find fuel r st = (concat (items <$> qs), Finished, st')
       ∧ fetched st' = fetched st.
Proof.
  induction qs as [|p0 qs IH]; intros st r fuel Hw Hfuel; [inversion Hw |].
  destruct fuel as [|fuel]; [simpl in Hfuel; lia |].
  inversion Hw as [r' p Hp Hn Hf Hl|r' p q pq qs' Hp Hn Hlt Hf Hi Hw']; subst.
  - cbn [__iter__]. unfold get_page at 1. rewrite Hp, Hf.
    assert (Hr : r < length (heap st)) by (by eapply lookup_lt_Some).
    destruct (page_truthy (heap st) (_current_iter p0)); simpl; unfold bind.
    + simpl. rewrite (next_page_absent find _ _ _ _ Hp Hn Hl).
      rewrite app_nil_r. eauto.
    + unfold modify. rewrite Hp.
      rewrite (next_page_absent find _ _ (set_current_iter (Some r) p0));
        [| simpl; by apply list_lookup_insert_eq | done | done].
      rewrite app_nil_r. eauto.
  - cbn [__iter__]. unfold get_page at 1. rewrite Hp, Hf.
    assert (Hr : r < length (heap st)) by (by eapply lookup_lt_Some).
    set (enter := if negb (page_truthy (heap st) (_current_iter p0))
                  then modify r (set_current_iter (Some r)) else ret ()).
    assert (∃ pe ste, enter st = (inr (), ste)
              ∧ heap ste = <[r := pe]> (heap st)
              ∧ fetched ste = fetched st
              ∧ _next pe = Some q ∧ _no_iter_next pe = false
              ∧ set_current_iter (Some q) pe = set_current_iter (Some q) p0)
      as (pe & ste & He & Hhe & Hfe & Hne & Hfl & Hset).
    { unfold enter. destruct (page_truthy (heap st) (_current_iter p0)); simpl.
      - exists p0, st. by rewrite list_insert_id.
      - unfold modify. rewrite Hp.
        exists (set_current_iter (Some r) p0),
               (mkState (<[r := set_current_iter (Some r) p0]> (heap st))
                        (fetched st)).
        split_and!; done. }
    assert (Hpe : heap ste !! r = Some pe).
    { rewrite Hhe. by apply list_lookup_insert_eq. }
    assert (Hwe : walked (heap ste) q (pq :: qs')).
    { eapply walked_frame; [exact Hw' |]. intros i Hi'. rewrite Hhe.
      apply list_lookup_insert_ne. lia. }
    unfold bind at 1. rewrite He.
    rewrite (next_page_cached find _ _ _ _ _ Hpe Hne (walked_truthy _ _ _ _ Hwe Hi)).
    unfold modify at 1. rewrite Hpe.
    set (st3 := mkState (<[r := set_current_iter (Some q) pe]> (heap ste))
                        (fetched ste)).
    assert (Hw3 : walked (heap st3) q (pq :: qs')).
    { eapply walked_frame; [exact Hwe |]. intros i Hi'. subst st3. simpl.
      apply list_lookup_insert_ne. lia. }
    destruct (IH st3 q fuel Hw3) as (st' & Hrun & Hfetched);
      [simpl in *; lia |].
    rewrite Hrun. exists st'. split; [done |].
    rewrite Hfetched. subst st3. simpl. done.
Qed.

  (** The first iteration of a page in auto-advance mode without a cached
      next page leaves the page and the pages of the chain behind it
      walked. *)
Lemma __iter___chain_walked ps : ∀ st r p (fuel : nat),
  heap st !! r = Some p →
  _no_iter_next p = false →
  _next p = None →
  chain find (next_page_url p) ps →
  Forall (λ x, items x ≠ []) ps →
  length ps < fuel →
  ∃ st' qs, __iter__ find fuel r st
            = (items p ++ concat (items <$> ps), Finished, st')
          ∧ walked (heap st') r qs
          ∧ items <$> qs = items p :: (items <$> ps)
          ∧ fetched st' = fetched st ++ chain_urls (next_page_url p) ps
          ∧ ∀ i, i < r → heap st' !! i = heap st !! i.
Proof.
  induction ps as [|np ps IH]; intros st r p fuel Hp Hf Hn Hc Hne Hfuel;
    inversion Hc; subst; (destruct fuel as [|fuel]; [simpl in Hfuel; lia |]).
  - assert (Hlt : r < length (heap st)) by (by eapply lookup_lt_Some).
    simpl. unfold get_page. rewrite Hp, Hf.
    destruct (page_truthy (heap st) (_current_iter p)); simpl; unfold bind.
    + simpl. rewrite (next_page_absent find _ _ _ _ Hp Hn) by done.
      rewrite !app_nil_r. exists st, [p]. split_and!; try done.
      by apply walked_last.
    + unfold modify. rewrite Hp.
      rewrite (next_page_absent find _ _ (set_current_iter (Some r) p));
        [| simpl; by apply list_lookup_insert_eq | done | done].
      rewrite !app_nil_r. eexists _, [set_current_iter (Some r) p].
      split_and!; [reflexivity | | done | done |].
      * apply walked_last; [by apply list_lookup_insert_eq | done..].
      * intros i Hi. simpl. apply list_lookup_insert_ne. lia.
  - match goal with H : Some _ = next_page_url p |- _ => symmetry in H; rename H into Hu end.
    apply Forall_cons in Hne as [Hnp Hne].
    assert (Hlt : r < length (heap st)) by (by eapply lookup_lt_Some).
    cbn [__iter__]. unfold get_page at 1. rewrite Hp, Hf.
    set (enter := if negb (page_truthy (heap st) (_current_iter p))
                  then modify r (set_current_iter (Some r)) else ret ()).
    assert (∃ pe ste, enter st = (inr (), ste)
              ∧ heap ste = <[r := pe]> (heap st)
              ∧ fetched ste = fetched st
              ∧ _next pe = None ∧ next_page_url pe = next_page_url p
              ∧ _no_iter_next pe = false ∧ items pe = items p)
      as (pe & ste & He & Hhe & Hfe & Hnx & Hue & Hfl & Hie).
    { unfold enter. destruct (page_truthy (heap st) (_current_iter p)); simpl.
      - exists p, st. by rewrite list_insert_id.
      - unfold modify. rewrite Hp.
        exists (set_current_iter (Some r) p),
               (mkState (<[r := set_current_iter (Some r) p]> (heap st))
                        (fetched st)).
        split_and!; done. }
    assert (Hpe : heap ste !! r = Some pe).
    { rewrite Hhe. by apply list_lookup_insert_eq. }
    assert (Hle : length (heap ste) = length (heap st)).
    { by rewrite Hhe, length_insert. }
    unfold bind at 1. rewrite He.
    rewrite (next_page_unfold find _ _ _ _ Hpe), Hnx. simpl.
    unfold has_next_page. rewrite Hue, Hu. simpl.
    match goal with H : truthy _ = true |- _ => rewrite H end. simpl.
    erewrite _fetch_page_ok by done.
    unfold modify at 1. cbn [heap fetched].
    rewrite (lookup_fetched_heap_self _ _ _ _ _ Hpe).
    set (q := length (heap ste)).
    set (pr := set_current_iter (Some q) (set_next (Some q) pe)).
    set (pq := set_no_iter_next (_no_iter_next pe) (set_previous (Some r) np)).
    set (st3 := mkState (<[r := pr]> (fetched_heap ste r pe np false))
                        (fetched ste ++ [u])).
    assert (Hq3 : heap st3 !! q = Some pq).
    { subst st3. cbn [heap]. rewrite list_lookup_insert_ne by (subst q; lia).
      exact (lookup_fetched_heap_new ste r pe np false Hpe). }
    assert (Hr3 : heap st3 !! r = Some pr).
    { subst st3. cbn [heap]. apply list_lookup_insert_eq.
      unfold fetched_heap. rewrite length_app, length_insert. lia. }
    edestruct (IH st3 q pq fuel Hq3) as (st' & qs & Hrun & Hw & Hitems & Hfetched & Hframe).
    + subst pq. simpl. done.
    + subst pq. simpl. by eapply __init___fields.
    + subst pq. simpl. done.
    + done.
    + simpl in Hfuel. lia.
    + rewrite Hrun.
      destruct (walked_head _ _ _ Hw) as (pq' & qs' & -> & Hq').
      exists st', (pr :: pq' :: qs'). split_and!.
      * subst pq. simpl. done.
      * apply walked_next with q.
        -- rewrite Hframe by (subst q; lia). exact Hr3.
        -- done.
        -- subst q. lia.
        -- subst pr. simpl. done.
        -- injection Hitems as Hi _. rewrite Hi. subst pq. simpl. done.
        -- done.
      * rewrite fmap_cons, Hitems. subst pr pq. simpl. by rewrite Hie.
      * rewrite Hfetched. subst st3 pq. simpl. by rewrite Hfe, <- app_assoc.
      * intros i Hi. rewrite Hframe by (subst q; lia). subst st3. cbn [heap].
        rewrite list_lookup_insert_ne by lia. unfold fetched_heap.
        rewrite lookup_app_l by (rewrite length_insert; lia).
        rewrite list_lookup_insert_ne by lia. rewrite Hhe.
        apply list_lookup_insert_ne. lia.
Qed.

(** X23. After the flattening iteration of a page in auto-advance mode
    without a cached next page has walked the pages behind it, each of
    which holds items, a second iteration of the page yields the same
    items and fetches nothing. *)
Theorem second_iteration_uses_the_cache st r p ps (fuel : nat) :
  heap st !! r = Some p →
  _no_iter_next p = false →
  _next p = None →
  chain find (next_page_url p) ps →
  Forall (λ x, items x ≠ []) ps →
  length ps < fuel →
  ∃ st1 st2,
    __iter__ find fuel r st = (items p ++ concat (items <$> ps), Finished, st1)
    ∧ fetched st1 = fetched st ++ chain_urls (next_page_url p) ps
    ∧ __iter__ find fuel r st1 = (items p ++ concat (items <$> ps), Finished, st2)
    ∧ fetched st2 = fetched st1.
Proof.
  intros Hp Hf Hn Hc Hne Hfuel.
  destruct (__iter___chain_walked ps st r p fuel Hp Hf Hn Hc Hne Hfuel)
    as (st1 & qs & Hrun & Hw & Hitems & Hfetched & _).
  destruct (__iter___walked qs st1 r fuel Hw) as (st2 & Hrun2 & Hfetched2).
  { apply (f_equal length) in Hitems. rewrite length_fmap in Hitems.
    simpl in Hitems. rewrite length_fmap in Hitems. lia. }
  exists st1, st2. split_and!; [done | done | | done].
  rewrite Hrun2, Hitems. done.
Qed.

(** X24. After the flattening iteration of a page in auto-advance mode
    without a cached next page has walked the pages behind it, each of
    which holds items, [len] of the page is the number of items of all the
    pages. *)
Theorem len_after_iteration_counts_all_pages st r p ps (fuel : nat) :
  heap st !! r = Some p →
  _no_iter_next p = false →
  _next p = None →
  chain find (next_page_url p) ps →
  Forall (λ x, items x ≠ []) ps →
  length ps < fuel →
  ∃ st1,
    __iter__ find fuel r st = (items p ++ concat (items <$> ps), Finished, st1)
    ∧ page_len r st = (inr (length (items p)), st)
    ∧ page_len r st1
      = (inr (length (items p ++ concat (items <$> ps))), st1).
Proof.
  intros Hp Hf Hn Hc Hne Hfuel.
  destruct (__iter___chain_walked ps st r p fuel Hp Hf Hn Hc Hne Hfuel)
    as (st1 & qs & Hrun & Hw & Hitems & _ & _).
  exists st1. split_and!; [done | |].
  - unfold page_len. apply lookup_lt_Some in Hp as Hlt.
    destruct (length (heap st)) as [|n] eqn:E; [lia |]. simpl.
    by rewrite Hp, Hn.
  - unfold page_len. rewrite (__len___walked _ _ _ Hw), Hitems; [done |].
    apply walked_bound in Hw. lia.
Qed.

(** X25. Every page that the page iterator yields, started on a page
    without a cached next page, has auto-advance turned off: the
    flattening iteration of each yielded page yields the items of that
    page only and fetches nothing. *)
Theorem yielded_pages_do_not_advance st r p ps (fuel : nat) :
  heap st !! r = Some p →
  _next p = None →
  chain find (next_page_url p) ps →
  2 + length ps ≤ fuel →
  ∃ st0 st' refs,
    PaginatedIterator__init__ (APage r) st = (inr (mkPaginatedIterator r), st0)
    ∧ pgen_run find fuel (GStart (mkPaginatedIterator r)) st0
      = (refs, Finished, st')
    ∧ Forall2 (λ (q : ref) pg,
                 ∀ fuel', __iter__ find (S fuel') q st' = (items pg, Finished, st'))
              refs (p :: ps).
Proof.
  intros Hp Hn Hc Hfuel.
  assert (Hlt : r < length (heap st)) by (by eapply lookup_lt_Some).
  set (st0 := mkState (<[r := set_no_iter_next true p]> (heap st)) (fetched st)).
  exists st0. eexists _, _. split_and!.
  - unfold PaginatedIterator__init__, bind, modify. by rewrite Hp.
  - destruct fuel as [|fuel]; [lia |]. cbn [pgen_run pgen_next collection].
    rewrite (pgen_run_chain find ps st0 r (set_no_iter_next true p) fuel);
      [reflexivity | by apply list_lookup_insert_eq | done | done | lia].
  - subst st0. cbn [heap fetched _no_iter_next set_no_iter_next next_page_url].
    rewrite length_insert. constructor.
    + intros fuel'. cbn [__iter__]. unfold get_page. cbn [heap].
      rewrite lookup_app_l by (by rewrite length_insert).
      rewrite list_lookup_insert_eq by done. reflexivity.
    + apply Forall2_same_length_lookup. split; [by rewrite length_seq |].
      intros i q pg Hq Hpg. apply lookup_seq in Hq as [-> Hi].
      intros fuel'. cbn [__iter__]. unfold get_page. cbn [heap].
      rewrite lookup_app_r by (rewrite length_insert; lia).
      rewrite length_insert.
      replace (length (heap st) + i - length (heap st)) with i by lia.
      rewrite list_lookup_fmap, Hpg. reflexivity.
Qed.

End Walked.

Lemma P2_P3_hold_items : Forall (λ x : page nat, items x ≠ []) [P2; P3].
Proof. repeat constructor; discriminate. Qed.

Lemma second_iteration_uses_the_cache_witness :
  ∃ st1 st2,
    __iter__ find3 3 0 (mkState [set_no_iter_next false P1] [])
    = ([1; 2; 3; 4; 5], Finished, st1)
    ∧ fetched st1 = ["u2"; "u3"]
    ∧ __iter__ find3 3 0 st1 = ([1; 2; 3; 4; 5], Finished, st2)
    ∧ fetched st2 = fetched st1.
Proof.
  exact (second_iteration_uses_the_cache find3
           (mkState [set_no_iter_next false P1] []) 0 (set_no_iter_next false P1)
           [P2; P3] 3 eq_refl eq_refl eq_refl CollectionSpec.chain_find3
           P2_P3_hold_items (le_n 3)).
Defined.

Lemma len_after_iteration_counts_all_pages_witness :
  ∃ st1,
    __iter__ find3 3 0 (mkState [set_no_iter_next false P1] [])
    = ([1; 2; 3; 4; 5], Finished, st1)
    ∧ page_len 0 (mkState [set_no_iter_next false P1] [])
      = (inr 2, mkState [set_no_iter_next false P1] [])
    ∧ page_len 0 st1 = (inr 5, st1).
Proof.
  exact (len_after_iteration_counts_all_pages find3
           (mkState [set_no_iter_next false P1] []) 0 (set_no_iter_next false P1)
           [P2; P3] 3 eq_refl eq_refl eq_refl CollectionSpec.chain_find3
           P2_P3_hold_items (le_n 3)).
Defined.

Lemma yielded_pages_do_not_advance_witness :
  ∃ st0 st' refs,
    PaginatedIterator__init__ (APage 0) (mkState [set_no_iter_next false P1] [])
    = (inr (mkPaginatedIterator 0), st0)
    ∧ pgen_run find3 4 (GStart (mkPaginatedIterator 0)) st0 = (refs, Finished, st')
    ∧ Forall2 (λ (q : ref) pg,
                 ∀ fuel', __iter__ find3 (S fuel') q st' = (items pg, Finished, st'))
              refs [set_no_iter_next false P1; P2; P3].
Proof.
  exact (yielded_pages_do_not_advance find3
           (mkState [set_no_iter_next false P1] []) 0 (set_no_iter_next false P1)
           [P2; P3] 4 eq_refl eq_refl CollectionSpec.chain_find3 (le_n 4)).
Defined.

End WalkedFacts.
